(** * Pocket: the timing-deviation engine and its polling display

    A shallow embedding of [PocketAudioProcessor::processBlock]
    (Source/PluginProcessor.cpp) and of
    [PocketAudioProcessorEditor::timerCallback] (Source/PluginEditor.cpp).

    A C++ [double] is an IEEE 754 binary64 number: it is modelled by Rocq's
    primitive [float], whose operations are the processor's own and whose
    meaning is given by [SpecFloat] through the axioms of [FloatAxioms].
    [processBlock] opens with a [juce::ScopedNoDenormals]: its arithmetic
    and its comparison are the binary64 ones with subnormal operands and
    results replaced by zeros ([juce.NoDenormals]); the editor's timer runs
    on another thread, with plain binary64.
    The two [std::atomic<double>] slots of the processor become the two
    fields of a record that [processBlock] passes along; a [store] is a
    field update, a [load] is a projection. *)

From Stdlib Require Import ZArith Bool List String Lia.
From Stdlib Require Import Floats Uint63.
Import ListNotations.

#[local] Set Warnings "-inexact-float".

(** ** The C++ arithmetic the sources rely on *)

Module Cxx.

(** Conversion of an [int] to [double], as the usual arithmetic
    conversions do for [metadata.samplePosition / sampleRate].  Every
    32-bit integer is a binary64 number, so no rounding takes place. *)
Definition double_of_int (z : Z) : float :=
  match z with
  | Z0 => 0%float
  | Zpos _ => of_uint63 (Uint63.of_Z z)
  | Zneg p => (- of_uint63 (Uint63.of_Z (Zpos p)))%float
  end.

(** [std::round]: the nearest integral value, halfway cases away from
    zero, whatever the rounding mode; zeros, infinities and NaN are
    returned as they are, and so is every number whose exponent is not
    negative, which is integral already.  For [|x| = m * 2^e] with
    [e < 0] the magnitude of the result is [floor (m * 2^e + 1/2)]. *)
Definition round_magnitude (m : positive) (e : Z) : Z :=
  ((Zpos m + 2 ^ (- e - 1)) / 2 ^ (- e))%Z.

Definition std_round (x : float) : float :=
  match Prim2SF x with
  | S754_finite s m e =>
      if (0 <=? e)%Z then x
      else
        let r := of_uint63 (Uint63.of_Z (round_magnitude m e)) in
        if s then (- r)%float else r
  | _ => x
  end.

(** [std::abs] on [double]. *)
Definition std_abs (x : float) : float := abs x.

End Cxx.

(** ** What the engine consumes from JUCE *)

Module juce.

(** [AudioPlayHead::CurrentPositionInfo], the fields the engine reads. *)
Record CurrentPositionInfo : Type := {
  bpm : float;
  ppqPosition : float;
  isPlaying : bool
}.

(** [AudioPlayHead]: [getCurrentPosition (result)] fills [result] and
    returns [true], or returns [false]; [None] is the [false] answer. *)
Record AudioPlayHead : Type := {
  getCurrentPosition : option CurrentPositionInfo
}.

(** One entry of a [MidiBuffer]: the sample offset in the block and what
    [getMessage().isNoteOn()] answers for it. *)
Record MidiMessageMetadata : Type := {
  samplePosition : Z;
  isNoteOn : bool
}.

(** A [MidiBuffer] is iterated in arrival order. *)
Definition MidiBuffer : Type := list MidiMessageMetadata.

(** [juce::ScopedNoDenormals]: while the object is alive, the thread's
    floating-point unit runs with flush-to-zero and denormals-are-zero.  An
    operand that is subnormal is read as the zero of its sign, and a result
    that is subnormal is replaced by the zero of its sign; this holds for
    the arithmetic instructions and for the comparisons.  Copying a value
    (a load or a store) is not an operation and leaves it as it is. *)
Module NoDenormals.

Definition is_subnormal (x : float) : bool :=
  match classify x with
  | PSubn | NSubn => true
  | _ => false
  end.

Definition flush (x : float) : float :=
  match classify x with
  | PSubn => zero
  | NSubn => neg_zero
  | _ => x
  end.

Definition add (x y : float) : float := flush (flush x + flush y)%float.
Definition sub (x y : float) : float := flush (flush x - flush y)%float.
Definition mul (x y : float) : float := flush (flush x * flush y)%float.
Definition div (x y : float) : float := flush (flush x / flush y)%float.
Definition ltb (x y : float) : bool := (flush x <? flush y)%float.

End NoDenormals.

End juce.

(** ** The processor *)

Module PocketAudioProcessor.
Import Cxx juce.

(** The two atomic slots shared with the editor. *)
Record t : Type := {
  lastTimingDifferenceMs : float;
  currentPpqPosition : float
}.

Definition store_lastTimingDifferenceMs (v : float) (p : t) : t :=
  {| lastTimingDifferenceMs := v; currentPpqPosition := currentPpqPosition p |}.

Definition store_currentPpqPosition (v : float) (p : t) : t :=
  {| lastTimingDifferenceMs := lastTimingDifferenceMs p; currentPpqPosition := v |}.

(** The chain of [const double] locals of the note-on branch, computed
    in the scope of [noDenormals].  [std::round] of a number that is not
    subnormal is the same with and without denormals. *)
Definition noteAbsolutePpq (sampleRate ppqPerMinute startPpq : float)
    (samplePos : Z) : float :=
  let secondsIntoBuffer := NoDenormals.div (double_of_int samplePos) sampleRate in
  let ppqOffset :=
    NoDenormals.mul secondsIntoBuffer (NoDenormals.div ppqPerMinute 60%float) in
  NoDenormals.add startPpq ppqOffset.

Definition ppqDifference (notePpq : float) : float :=
  let nearestQuarterNotePpq := std_round notePpq in
  NoDenormals.sub notePpq nearestQuarterNotePpq.

Definition msDifference (ppqPerMinute notePpq : float) : float :=
  NoDenormals.mul (ppqDifference notePpq)
    (NoDenormals.div 60000%float ppqPerMinute).

(** The body of [for (const auto metadata : midiMessages)]. *)
Definition noteStep (sampleRate ppqPerMinute startPpq : float)
    (p : t) (metadata : MidiMessageMetadata) : t :=
  if isNoteOn metadata then
    store_lastTimingDifferenceMs
      (msDifference ppqPerMinute
         (noteAbsolutePpq sampleRate ppqPerMinute startPpq
            (samplePosition metadata)))
      p
  else p.

(** The timing logic of [processBlock], in the scope of the
    [juce::ScopedNoDenormals noDenormals] that the function opens with.
    [sampleRate] is what [getSampleRate ()] returns, [playHead] what
    [getPlayHead ()] returns ([None] for [nullptr]); the audio buffer plays
    no part in it and the MIDI buffer is only read. *)
Definition processBlock (sampleRate : float) (playHead : option AudioPlayHead)
    (midiMessages : MidiBuffer) (p : t) : t :=
  match playHead with
  | Some head =>
      match getCurrentPosition head with
      | Some positionInfo =>
          if isPlaying positionInfo then
            let p := store_currentPpqPosition (ppqPosition positionInfo) p in
            if NoDenormals.ltb 0%float (bpm positionInfo) then
              let ppqPerMinute := bpm positionInfo in
              let startPpq := ppqPosition positionInfo in
              fold_left (noteStep sampleRate ppqPerMinute startPpq)
                        midiMessages p
            else
              store_lastTimingDifferenceMs 0%float p
          else
            store_lastTimingDifferenceMs 0%float
              (store_currentPpqPosition (-1)%float p)
      | None =>
          store_lastTimingDifferenceMs 0%float
            (store_currentPpqPosition (-1)%float p)
      end
  | None =>
      store_lastTimingDifferenceMs 0%float
        (store_currentPpqPosition (-1)%float p)
  end.

(** The transport of a block is playing: there is a play head, its
    position query succeeds and it reports [isPlaying]. *)
Definition playing (playHead : option AudioPlayHead) : option CurrentPositionInfo :=
  match playHead with
  | Some head =>
      match getCurrentPosition head with
      | Some positionInfo =>
          if isPlaying positionInfo then Some positionInfo else None
      | None => None
      end
  | None => None
  end.

(** The note-on events of a block, in arrival order. *)
Definition noteOns (midiMessages : MidiBuffer) : MidiBuffer :=
  filter isNoteOn midiMessages.

End PocketAudioProcessor.

(** ** The editor's timer *)

Module PocketAudioProcessorEditor.
Import Cxx.

(** What the two [callAsync] lambdas hand to the three labels. *)
Record Labels : Type := {
  earlyMsLabel : string;
  lateMsLabel : string;
  playheadLabel : string
}.

Definition threshold : float := 0.001%float.

Section Timer.
(** [juce::String (double, int numberOfDecimalPlaces)]. *)
Variable String_of_double : float -> nat -> string.

Definition timingStrings (differenceMs : float) : string * string :=
  if (differenceMs <? - threshold)%float then
    ((String_of_double (std_abs differenceMs) 1 ++ " ms")%string, EmptyString)
  else if (threshold <? differenceMs)%float then
    (EmptyString, ("+ " ++ String_of_double differenceMs 1 ++ " ms")%string)
  else
    (EmptyString, EmptyString).

Definition playheadString (ppq : float) : string :=
  if (0 <=? ppq)%float then ("PPQ: " ++ String_of_double ppq 3)%string
  else "Stopped"%string.

Definition timerCallback (audioProcessor : PocketAudioProcessor.t) : Labels :=
  let differenceMs := PocketAudioProcessor.lastTimingDifferenceMs audioProcessor in
  let '(earlyString, lateString) := timingStrings differenceMs in
  let ppq := PocketAudioProcessor.currentPpqPosition audioProcessor in
  {| earlyMsLabel := earlyString;
     lateMsLabel := lateString;
     playheadLabel := playheadString ppq |}.
End Timer.

End PocketAudioProcessorEditor.

Import Cxx juce PocketAudioProcessor.

(** ** Sanity checks of the arithmetic model *)

Example std_round_ties_away :
  std_round 4.5%float = 5%float /\ std_round (-4.5)%float = (-5)%float /\
  std_round 2.5%float = 3%float /\ std_round 0.49999999999999994%float = 0%float /\
  std_round 4.25%float = 4%float /\ std_round 4503599627370497%float = 4503599627370497%float.
Proof. vm_compute. repeat split; reflexivity. Qed.

Example double_of_int_samples :
  double_of_int 11025 = 11025%float /\ double_of_int (-3) = (-3)%float.
Proof. vm_compute. split; reflexivity. Qed.

Example noDenormals_samples :
  NoDenormals.flush 0x1p-1064 = 0%float /\
  NoDenormals.flush (-0x1p-1064) = neg_zero /\
  NoDenormals.flush 0x1p-1022 = 0x1p-1022%float /\
  (0 <? 0x1p-1064)%float = true /\
  NoDenormals.ltb 0 0x1p-1064 = false /\
  NoDenormals.mul 0x1p-1000 0x1p-60 = 0%float /\
  NoDenormals.div 11025 44100 = 0.25%float.
Proof. vm_compute. repeat split; reflexivity. Qed.

(** ** Comparisons with zero

    The comparisons of binary64 are decided on the [spec_float] image. *)

Lemma Prim2SF_zero : Prim2SF 0%float = S754_zero false.
Proof. reflexivity. Qed.

Lemma leb_zero_not_positive (x : float) :
  (x <=? 0)%float = true -> (0 <? x)%float = false.
Proof.
  rewrite FloatAxioms.leb_spec, FloatAxioms.ltb_spec, Prim2SF_zero.
  unfold SFleb, SFltb, SFcompare.
  destruct (Prim2SF x) as [s|s| |s m e]; try destruct s; congruence.
Qed.

(** ** The no-denormals operations on [spec_float] *)

(** The image of [NoDenormals.flush]: a mantissa of fewer than 53 digits
    marks a subnormal number. *)
Definition SFflush (f : spec_float) : spec_float :=
  match f with
  | S754_finite s m e =>
      if (Zpos (digits2_pos m) =? prec)%Z then f else S754_zero s
  | _ => f
  end.

Lemma Prim2SF_flush x : Prim2SF (NoDenormals.flush x) = SFflush (Prim2SF x).
Proof.
  unfold NoDenormals.flush. rewrite classify_spec.
  unfold SF64classify, SFclassify, SFflush.
  destruct (Prim2SF x) as [s|s| |s m e] eqn:X; try destruct s;
    try exact X; destruct (Zpos (digits2_pos m) =? prec)%Z;
    try exact X; reflexivity.
Qed.

Lemma SFflush_idempotent f : SFflush (SFflush f) = SFflush f.
Proof.
  destruct f as [s|s| |s m e]; try reflexivity. unfold SFflush.
  destruct (Zpos (digits2_pos m) =? prec)%Z eqn:D; [rewrite D|]; reflexivity.
Qed.

Lemma is_subnormal_spec x :
  NoDenormals.is_subnormal x =
  match Prim2SF x with
  | S754_finite _ m _ => negb (Zpos (digits2_pos m) =? prec)%Z
  | _ => false
  end.
Proof.
  unfold NoDenormals.is_subnormal. rewrite classify_spec.
  unfold SF64classify, SFclassify.
  destruct (Prim2SF x) as [s|s| |s m e]; try destruct s; try reflexivity;
    destruct (Zpos (digits2_pos m) =? prec)%Z; reflexivity.
Qed.

Lemma flush_not_subnormal x :
  NoDenormals.is_subnormal x = false -> NoDenormals.flush x = x.
Proof.
  unfold NoDenormals.is_subnormal, NoDenormals.flush.
  destruct (classify x); try reflexivity; discriminate.
Qed.

Lemma Prim2SF_nd_add x y :
  Prim2SF (NoDenormals.add x y) =
  SFflush (SF64add (SFflush (Prim2SF x)) (SFflush (Prim2SF y))).
Proof.
  unfold NoDenormals.add.
  rewrite Prim2SF_flush, FloatAxioms.add_spec, !Prim2SF_flush. reflexivity.
Qed.

Lemma Prim2SF_nd_sub x y :
  Prim2SF (NoDenormals.sub x y) =
  SFflush (SF64sub (SFflush (Prim2SF x)) (SFflush (Prim2SF y))).
Proof.
  unfold NoDenormals.sub.
  rewrite Prim2SF_flush, FloatAxioms.sub_spec, !Prim2SF_flush. reflexivity.
Qed.

Lemma Prim2SF_nd_mul x y :
  Prim2SF (NoDenormals.mul x y) =
  SFflush (SF64mul (SFflush (Prim2SF x)) (SFflush (Prim2SF y))).
Proof.
  unfold NoDenormals.mul.
  rewrite Prim2SF_flush, FloatAxioms.mul_spec, !Prim2SF_flush. reflexivity.
Qed.

Lemma Prim2SF_nd_div x y :
  Prim2SF (NoDenormals.div x y) =
  SFflush (SF64div (SFflush (Prim2SF x)) (SFflush (Prim2SF y))).
Proof.
  unfold NoDenormals.div.
  rewrite Prim2SF_flush, FloatAxioms.div_spec, !Prim2SF_flush. reflexivity.
Qed.

Lemma nd_ltb_zero x :
  NoDenormals.ltb 0 x = SFltb (S754_zero false) (SFflush (Prim2SF x)).
Proof.
  unfold NoDenormals.ltb.
  rewrite FloatAxioms.ltb_spec, !Prim2SF_flush, Prim2SF_zero. reflexivity.
Qed.

(** The test [bpm > 0] in the scope of [noDenormals] succeeds exactly for
    the positive numbers that are not subnormal. *)
Lemma nd_positive_iff x :
  NoDenormals.ltb 0 x = true <->
  (0 <? x)%float = true /\ NoDenormals.is_subnormal x = false.
Proof.
  rewrite nd_ltb_zero, is_subnormal_spec, FloatAxioms.ltb_spec, Prim2SF_zero.
  unfold SFltb, SFcompare, SFflush.
  destruct (Prim2SF x) as [s|s| |s m e]; try destruct s;
    try destruct (Zpos (digits2_pos m) =? prec)%Z; simpl;
    split; try intros [H H']; try discriminate; auto.
Qed.

Lemma nd_not_positive x :
  (0 <? x)%float = false -> NoDenormals.ltb 0 x = false.
Proof.
  intros H. destruct (NoDenormals.ltb 0 x) eqn:N; [|reflexivity].
  apply nd_positive_iff in N. destruct N as [N _]. congruence.
Qed.

Lemma nd_subnormal_not_positive x :
  NoDenormals.is_subnormal x = true -> NoDenormals.ltb 0 x = false.
Proof.
  intros H. destruct (NoDenormals.ltb 0 x) eqn:N; [|reflexivity].
  apply nd_positive_iff in N. destruct N as [_ N]. congruence.
Qed.

(** Two floats that a comparison tells apart are different. *)
Ltac float_neq k :=
  let H := fresh in
  intro H; apply (f_equal (fun x => (x <? k)%float)) in H;
  vm_compute in H; discriminate H.

(** ** The loop over the MIDI buffer *)

Section Loop.
Variables sampleRate ppqPerMinute startPpq : float.

Let step := noteStep sampleRate ppqPerMinute startPpq.

Let deviation (metadata : MidiMessageMetadata) : float :=
  msDifference ppqPerMinute
    (noteAbsolutePpq sampleRate ppqPerMinute startPpq (samplePosition metadata)).

Lemma noteStep_currentPpqPosition p metadata :
  currentPpqPosition (step p metadata) = currentPpqPosition p.
Proof. unfold step, noteStep. destruct (isNoteOn metadata); reflexivity. Qed.

Lemma loop_currentPpqPosition midiMessages : forall p,
  currentPpqPosition (fold_left step midiMessages p) = currentPpqPosition p.
Proof.
  induction midiMessages as [|metadata rest IH]; intros p; simpl.
  - reflexivity.
  - rewrite IH. apply noteStep_currentPpqPosition.
Qed.

(** Events that are not note-ons do not take part in the loop. *)
Lemma loop_noteOns midiMessages : forall p,
  fold_left step midiMessages p = fold_left step (noteOns midiMessages) p.
Proof.
  induction midiMessages as [|metadata rest IH]; intros p; simpl.
  - reflexivity.
  - destruct (isNoteOn metadata) eqn:E; simpl; rewrite IH.
    + reflexivity.
    + unfold step at 2, noteStep. rewrite E. reflexivity.
Qed.

Lemma noteOns_isNoteOn midiMessages metadata :
  In metadata (noteOns midiMessages) -> isNoteOn metadata = true.
Proof. unfold noteOns. intros H. apply filter_In in H. tauto. Qed.

(** After a note-on the slot holds that note's deviation, whatever it
    held before. *)
Lemma loop_last earlier metadata p :
  isNoteOn metadata = true ->
  fold_left step (earlier ++ [metadata]) p =
  store_lastTimingDifferenceMs (deviation metadata)
    (fold_left step earlier p).
Proof.
  intros E. rewrite fold_left_app. simpl.
  unfold step at 1, noteStep. rewrite E. reflexivity.
Qed.

Lemma loop_silent midiMessages p :
  noteOns midiMessages = [] -> fold_left step midiMessages p = p.
Proof. intros E. rewrite loop_noteOns, E. reflexivity. Qed.

Lemma loop_last_noteOn midiMessages p :
  noteOns midiMessages <> [] ->
  lastTimingDifferenceMs (fold_left step midiMessages p) =
  deviation (last (noteOns midiMessages) {| samplePosition := 0; isNoteOn := true |}).
Proof.
  intros NE. rewrite loop_noteOns.
  pose proof (noteOns_isNoteOn midiMessages) as ON.
  destruct (exists_last NE) as [earlier [metadata E]].
  rewrite E in *. rewrite last_last, loop_last.
  - reflexivity.
  - apply ON, in_or_app. right. left. reflexivity.
Qed.
End Loop.

(** ** The branches of [processBlock] *)

Lemma processBlock_stopped sampleRate playHead midiMessages p :
  playing playHead = None ->
  processBlock sampleRate playHead midiMessages p =
  {| lastTimingDifferenceMs := 0; currentPpqPosition := -1 |}.
Proof.
  unfold playing, processBlock.
  destruct playHead as [head|]; [|reflexivity].
  destruct (getCurrentPosition head) as [positionInfo|]; [|reflexivity].
  destruct (isPlaying positionInfo); [discriminate|reflexivity].
Qed.

Lemma processBlock_playing sampleRate playHead midiMessages p positionInfo :
  playing playHead = Some positionInfo ->
  processBlock sampleRate playHead midiMessages p =
  if NoDenormals.ltb 0 (bpm positionInfo) then
    fold_left (noteStep sampleRate (bpm positionInfo) (ppqPosition positionInfo))
      midiMessages (store_currentPpqPosition (ppqPosition positionInfo) p)
  else
    {| lastTimingDifferenceMs := 0; currentPpqPosition := ppqPosition positionInfo |}.
Proof.
  unfold playing, processBlock.
  destruct playHead as [head|]; [|discriminate].
  destruct (getCurrentPosition head) as [info|]; [|discriminate].
  destruct (isPlaying info) eqn:E; [|discriminate].
  intros H. injection H as ->. reflexivity.
Qed.

Lemma playing_None_cases playHead :
  playing playHead = None <->
  playHead = None \/
  (exists head, playHead = Some head /\ getCurrentPosition head = None) \/
  (exists head positionInfo, playHead = Some head /\
     getCurrentPosition head = Some positionInfo /\ isPlaying positionInfo = false).
Proof.
  unfold playing. split.
  - destruct playHead as [head|]; [|now left].
    destruct (getCurrentPosition head) as [info|] eqn:G.
    + destruct (isPlaying info) eqn:E; [discriminate|].
      intros _. right. right. exists head, info. auto.
    + intros _. right. left. exists head. auto.
  - intros [->|[[head [-> G]]|[head [info [-> [G E]]]]]].
    + reflexivity.
    + rewrite G. reflexivity.
    + rewrite G, E. reflexivity.
Qed.

(** ** Concrete blocks used below *)

Definition head_of (positionInfo : CurrentPositionInfo) : option AudioPlayHead :=
  Some {| getCurrentPosition := Some positionInfo |}.

Definition noteOn_at (samplePos : Z) : MidiMessageMetadata :=
  {| samplePosition := samplePos; isNoteOn := true |}.

Definition noteOff_at (samplePos : Z) : MidiMessageMetadata :=
  {| samplePosition := samplePos; isNoteOn := false |}.

Definition transport_120_at_4 : CurrentPositionInfo :=
  {| bpm := 120; ppqPosition := 4; isPlaying := true |}.

Definition earlier_state : PocketAudioProcessor.t :=
  {| lastTimingDifferenceMs := 12.5; currentPpqPosition := 3 |}.

(** A tempo far below the smallest normal number: positive, and read as
    zero in the scope of [noDenormals]. *)
Definition transport_subnormal_tempo : CurrentPositionInfo :=
  {| bpm := 0x1p-1064; ppqPosition := 4.25; isPlaying := true |}.

(** ** The claims on [processBlock] *)

Lemma tempo_accepted (tempo : float) :
  (0 <? tempo)%float = true -> NoDenormals.is_subnormal tempo = false ->
  NoDenormals.ltb 0 tempo = true.
Proof. intros P N. apply nd_positive_iff. split; assumption. Qed.







(** C4, as the code has it.  A block without note-ons leaves
    [lastTimingDifferenceMs] as the previous block published it when it is
    processed while playing with a tempo that is positive and not
    subnormal; processed without a playing transport, or with a tempo that
    is not positive or is subnormal, it publishes 0. *)
Theorem silent_block_keeps_deviation
    sampleRate playHead midiMessages p :
  noteOns midiMessages = [] ->
  (forall positionInfo,
     playing playHead = Some positionInfo ->
     (0 <? bpm positionInfo)%float = true ->
     NoDenormals.is_subnormal (bpm positionInfo) = false ->
     lastTimingDifferenceMs (processBlock sampleRate playHead midiMessages p) =
     lastTimingDifferenceMs p) /\
  (playing playHead = None ->
   lastTimingDifferenceMs (processBlock sampleRate playHead midiMessages p) = 0%float) /\
  (forall positionInfo,
     playing playHead = Some positionInfo ->
     (0 <? bpm positionInfo)%float = false \/
     NoDenormals.is_subnormal (bpm positionInfo) = true ->
     lastTimingDifferenceMs (processBlock sampleRate playHead midiMessages p) = 0%float).
Proof.
  intros SILENT. split; [|split].
  - intros positionInfo PL TEMPO NORMAL.
    rewrite (processBlock_playing _ _ _ _ _ PL), (tempo_accepted _ TEMPO NORMAL).
    rewrite loop_silent by exact SILENT. reflexivity.
  - intros PL. rewrite (processBlock_stopped _ _ _ _ PL). reflexivity.
  - intros positionInfo PL REFUSED.
    rewrite (processBlock_playing _ _ _ _ _ PL).
    assert (R : NoDenormals.ltb 0 (bpm positionInfo) = false).
    { destruct REFUSED as [N|S];
        [apply nd_not_positive, N | apply nd_subnormal_not_positive, S]. }
    rewrite R. reflexivity.
Qed.

Lemma silent_block_keeps_deviation_witness :
  lastTimingDifferenceMs
    (processBlock 44100 (head_of transport_120_at_4) [noteOff_at 17] earlier_state)
  = 12.5%float /\
  lastTimingDifferenceMs
    (processBlock 44100 (head_of transport_subnormal_tempo) [noteOff_at 17] earlier_state)
  = 0%float.
Proof.
  pose proof (silent_block_keeps_deviation 44100 (head_of transport_120_at_4)
                [noteOff_at 17] earlier_state eq_refl) as [KEEP _].
  pose proof (silent_block_keeps_deviation 44100 (head_of transport_subnormal_tempo)
                [noteOff_at 17] earlier_state eq_refl) as [_ [_ RESET]].
  split.
  - apply (KEEP transport_120_at_4); reflexivity.
  - apply (RESET transport_subnormal_tempo); [reflexivity|right; reflexivity].
Defined.

(** C4 as stated fails: a block without note-ons that is processed while the
    transport is stopped, or while the tempo is not positive, resets the
    slot to 0. *)
Lemma silent_block_resets_when_stopped :
  let stopped := {| bpm := 120; ppqPosition := 4; isPlaying := false |} in
  let tempo0 := {| bpm := 0; ppqPosition := 4; isPlaying := true |} in
  noteOns [noteOff_at 17] = [] /\
  lastTimingDifferenceMs
    (processBlock 44100 (head_of stopped) [noteOff_at 17] earlier_state)
  <> lastTimingDifferenceMs earlier_state /\
  lastTimingDifferenceMs
    (processBlock 44100 (head_of tempo0) [noteOff_at 17] earlier_state)
  <> lastTimingDifferenceMs earlier_state.
Proof.
  repeat split; vm_compute; float_neq 1%float.
Qed.

(** C5. When there is no play head, or its position query fails, or it
    reports that the transport is not playing, the block publishes
    [currentPpqPosition = -1] and [lastTimingDifferenceMs = 0] and nothing
    else: the result is the same for every MIDI buffer and every earlier
    state, so no event of the block is looked at. *)
Theorem stopped_block_publishes_defaults
    sampleRate playHead midiMessages p :
  playHead = None \/
  (exists head, playHead = Some head /\ getCurrentPosition head = None) \/
  (exists head positionInfo, playHead = Some head /\
     getCurrentPosition head = Some positionInfo /\
     isPlaying positionInfo = false) ->
  processBlock sampleRate playHead midiMessages p =
  {| lastTimingDifferenceMs := 0; currentPpqPosition := -1 |}.
Proof.
  intros H. apply processBlock_stopped, playing_None_cases, H.
Qed.

Lemma stopped_block_publishes_defaults_witness :
  let stopped := {| bpm := 120; ppqPosition := 4; isPlaying := false |} in
  let midiMessages := [noteOn_at 3000; noteOn_at 6000] in
  processBlock 48000 (head_of stopped) midiMessages earlier_state =
  {| lastTimingDifferenceMs := 0; currentPpqPosition := -1 |} /\
  processBlock 48000 None midiMessages earlier_state =
  {| lastTimingDifferenceMs := 0; currentPpqPosition := -1 |} /\
  processBlock 48000 (Some {| getCurrentPosition := None |}) midiMessages earlier_state =
  {| lastTimingDifferenceMs := 0; currentPpqPosition := -1 |}.
Proof.
  intros stopped midiMessages. split; [|split].
  - apply stopped_block_publishes_defaults. right. right.
    exists {| getCurrentPosition := Some stopped |}, stopped.
    split; [reflexivity|split; reflexivity].
  - apply stopped_block_publishes_defaults. left. reflexivity.
  - apply stopped_block_publishes_defaults. right. left.
    exists {| getCurrentPosition := None |}. split; reflexivity.
Defined.

(** C6. While playing with [bpm <= 0], the block publishes
    [lastTimingDifferenceMs = 0.0] and the position of the snapshot, whatever
    the MIDI buffer holds: no note-on is turned into a deviation. *)
Theorem invalid_tempo_publishes_zero
    sampleRate playHead positionInfo midiMessages p :
  playing playHead = Some positionInfo ->
  (bpm positionInfo <=? 0)%float = true ->
  processBlock sampleRate playHead midiMessages p =
  {| lastTimingDifferenceMs := 0; currentPpqPosition := ppqPosition positionInfo |}.
Proof.
  intros PL TEMPO.
  rewrite (processBlock_playing _ _ _ _ _ PL).
  rewrite (nd_not_positive _ (leb_zero_not_positive _ TEMPO)). reflexivity.
Qed.

Lemma invalid_tempo_publishes_zero_witness :
  let tempo0 := {| bpm := 0; ppqPosition := 7.25; isPlaying := true |} in
  processBlock 48000 (head_of tempo0) [noteOn_at 3000; noteOn_at 6000] earlier_state =
  {| lastTimingDifferenceMs := 0; currentPpqPosition := 7.25 |}.
Proof.
  intros tempo0.
  apply (invalid_tempo_publishes_zero 48000 (head_of tempo0) tempo0); reflexivity.
Defined.

(** C7. At 120 bpm, position 4.0 and 44100 Hz, a single note-on at sample
    11025 lies at 4.5 quarter notes; [std::round] takes the tie away from
    zero, to the grid line 5, and the block publishes exactly -250.0 ms. *)
Theorem quarter_second_tie p :
  noteAbsolutePpq 44100 120 4 11025 = 4.5%float /\
  std_round (noteAbsolutePpq 44100 120 4 11025) = 5%float /\
  lastTimingDifferenceMs
    (processBlock 44100 (head_of transport_120_at_4) [noteOn_at 11025] p)
  = (-250)%float.
Proof.
  repeat split; vm_compute; reflexivity.
Qed.

(** C9, as the code has it.  Whenever the play head answers and reports
    [isPlaying], the block publishes the reported position as it is, with no
    check of the value: the position of the stopped branch appears only for
    a missing play head, a failed query or [isPlaying = false]. *)
Theorem playing_block_publishes_reported_position
    sampleRate playHead positionInfo midiMessages p :
  playing playHead = Some positionInfo ->
  currentPpqPosition (processBlock sampleRate playHead midiMessages p) =
  ppqPosition positionInfo.
Proof.
  intros PL. rewrite (processBlock_playing _ _ _ _ _ PL).
  destruct (NoDenormals.ltb 0 (bpm positionInfo)).
  - rewrite loop_currentPpqPosition. reflexivity.
  - reflexivity.
Qed.

Definition transport_negative_position : CurrentPositionInfo :=
  {| bpm := 120; ppqPosition := -3.5; isPlaying := true |}.

Lemma playing_block_publishes_reported_position_witness :
  currentPpqPosition
    (processBlock 48000 (head_of transport_negative_position) [noteOn_at 0] earlier_state)
  = (-3.5)%float.
Proof.
  apply (playing_block_publishes_reported_position 48000
           (head_of transport_negative_position) transport_negative_position).
  reflexivity.
Defined.

(** C9 as stated fails: with [isPlaying] true and a negative position the
    block publishes that position and a deviation measured from it, not the
    outputs of the stopped branch. *)
Lemma negative_position_is_not_stopped :
  (ppqPosition transport_negative_position <? 0)%float = true /\
  processBlock 48000 (head_of transport_negative_position) [noteOn_at 0] earlier_state
  = {| lastTimingDifferenceMs := 250; currentPpqPosition := -3.5 |} /\
  processBlock 48000 (head_of transport_negative_position) [noteOn_at 0] earlier_state
  <> {| lastTimingDifferenceMs := 0; currentPpqPosition := -1 |}.
Proof.
  repeat split; try (vm_compute; reflexivity).
  vm_compute. intros H.
  apply (f_equal currentPpqPosition) in H. revert H. simpl. float_neq (-2)%float.
Qed.

(** ** Binary64 comparisons against a positive threshold *)

Lemma SFabs_leb_between f mT eT :
  SFleb (SFabs f) (S754_finite false mT eT) = true ->
  SFltb f (S754_finite true mT eT) = false /\
  SFltb (S754_finite false mT eT) f = false.
Proof.
  unfold SFleb, SFltb, SFcompare, SFabs.
  destruct f as [s|s| |s m e];
    try (try destruct s; simpl; split; congruence).
  rewrite (Z.compare_antisym e eT).
  pose proof (Pos.compare_cont_antisym m mT Eq) as A. simpl in A. rewrite <- A.
  destruct s; destruct (e ?= eT)%Z; simpl;
    destruct (Pos.compare_cont Eq m mT); simpl; split; congruence.
Qed.

Lemma SFltb_below_not_above f mT eT :
  SFltb f (S754_finite true mT eT) = true ->
  SFltb (S754_finite false mT eT) f = false.
Proof.
  unfold SFltb, SFcompare.
  destruct f as [s|s| |s m e]; try destruct s;
    try reflexivity; intros H; discriminate H.
Qed.

Lemma abs_leb_between (d t : float) mT eT :
  Prim2SF t = S754_finite false mT eT ->
  (abs d <=? t)%float = true ->
  (d <? - t)%float = false /\ (t <? d)%float = false.
Proof.
  intros T.
  rewrite FloatAxioms.leb_spec, !FloatAxioms.ltb_spec, FloatAxioms.abs_spec, FloatAxioms.opp_spec, T.
  apply SFabs_leb_between.
Qed.

Lemma append_ms_not_empty (s : string) : (s ++ " ms")%string <> EmptyString.
Proof. destruct s; discriminate. Qed.

(** ** The claim on [timerCallback] *)

Section TimerFacts.
Import PocketAudioProcessorEditor.
Variable String_of_double : float -> nat -> string.

Lemma timingStrings_early differenceMs :
  fst (timingStrings String_of_double differenceMs) <> EmptyString <->
  (differenceMs <? - threshold)%float = true.
Proof.
  unfold timingStrings.
  destruct (differenceMs <? - threshold)%float; simpl.
  - split; [reflexivity|]. intros _. apply append_ms_not_empty.
  - destruct (threshold <? differenceMs)%float; simpl;
      split; congruence.
Qed.

Lemma timingStrings_late differenceMs :
  snd (timingStrings String_of_double differenceMs) <> EmptyString <->
  (threshold <? differenceMs)%float = true.
Proof.
  unfold timingStrings.
  destruct (differenceMs <? - threshold)%float eqn:EARLY; simpl.
  - split; [congruence|]. intros LATE. exfalso.
    revert EARLY LATE. rewrite !FloatAxioms.ltb_spec, FloatAxioms.opp_spec.
    change (Prim2SF threshold) with (S754_finite false 4611686018427388 (-62)).
    intros EARLY. rewrite (SFltb_below_not_above _ _ _ EARLY). discriminate.
  - destruct (threshold <? differenceMs)%float; simpl.
    + split; [reflexivity|discriminate].
    + split; congruence.
Qed.
End TimerFacts.

(** C10. Whatever [lastTimingDifferenceMs] the timer reads: when its
    absolute value is at most 0.001 both timing labels are set to the empty
    string; the early label is non-empty exactly when the value is below
    -0.001, the late label exactly when it is above 0.001 (a NaN, for which
    every comparison fails, gives two empty labels as well). *)
Theorem timer_threshold_display
    (String_of_double : float -> nat -> string) (audioProcessor : PocketAudioProcessor.t) :
  let differenceMs := lastTimingDifferenceMs audioProcessor in
  let labels := PocketAudioProcessorEditor.timerCallback String_of_double audioProcessor in
  ((abs differenceMs <=? 0.001)%float = true ->
     PocketAudioProcessorEditor.earlyMsLabel labels = EmptyString /\
     PocketAudioProcessorEditor.lateMsLabel labels = EmptyString) /\
  (PocketAudioProcessorEditor.earlyMsLabel labels <> EmptyString <->
     (differenceMs <? -0.001)%float = true) /\
  (PocketAudioProcessorEditor.lateMsLabel labels <> EmptyString <->
     (0.001 <? differenceMs)%float = true).
Proof.
  intros differenceMs labels.
  assert (E : PocketAudioProcessorEditor.earlyMsLabel labels =
              fst (PocketAudioProcessorEditor.timingStrings String_of_double differenceMs)).
  { unfold labels, PocketAudioProcessorEditor.timerCallback. fold differenceMs.
    destruct (PocketAudioProcessorEditor.timingStrings String_of_double differenceMs).
    reflexivity. }
  assert (L : PocketAudioProcessorEditor.lateMsLabel labels =
              snd (PocketAudioProcessorEditor.timingStrings String_of_double differenceMs)).
  { unfold labels, PocketAudioProcessorEditor.timerCallback. fold differenceMs.
    destruct (PocketAudioProcessorEditor.timingStrings String_of_double differenceMs).
    reflexivity. }
  rewrite E, L. split; [|split].
  - intros SMALL.
    destruct (abs_leb_between differenceMs 0.001%float 4611686018427388 (-62)
                eq_refl SMALL) as [NE NL].
    unfold PocketAudioProcessorEditor.timingStrings.
    change PocketAudioProcessorEditor.threshold with 0.001%float.
    rewrite NE, NL. split; reflexivity.
  - apply timingStrings_early.
  - apply timingStrings_late.
Qed.

Definition one_decimal_stub (x : float) (places : nat) : string := "0.0"%string.

Lemma timer_threshold_display_witness :
  let quiet := {| lastTimingDifferenceMs := 0.0005; currentPpqPosition := 4 |} in
  let labels := PocketAudioProcessorEditor.timerCallback one_decimal_stub quiet in
  PocketAudioProcessorEditor.earlyMsLabel labels = EmptyString /\
  PocketAudioProcessorEditor.lateMsLabel labels = EmptyString.
Proof.
  intros quiet labels.
  apply (proj1 (timer_threshold_display one_decimal_stub quiet)).
  reflexivity.
Defined.

(** ** A zero sample rate

    Binary64 division by zero raises nothing: it yields an infinity or a
    NaN, which the rest of the chain turns into a NaN.  Flushing denormals
    changes neither an infinity nor a NaN. *)

Definition SFnan_or_infinity (f : spec_float) : bool :=
  match f with
  | S754_nan | S754_infinity _ => true
  | _ => false
  end.

Lemma SFeqb_zero f :
  SFeqb f (S754_zero false) = true -> exists s, f = S754_zero s.
Proof.
  unfold SFeqb, SFcompare.
  destruct f as [s|s| |s m e]; try destruct s; try discriminate;
    intros _; eexists; reflexivity.
Qed.

Lemma SFdiv_by_zero f s :
  SFnan_or_infinity (SF64div f (S754_zero s)) = true.
Proof. destruct f; reflexivity. Qed.

Lemma SFmul_nan_or_infinity a y :
  SFnan_or_infinity a = true -> SFnan_or_infinity (SF64mul a y) = true.
Proof. destruct a; try discriminate; destruct y; reflexivity. Qed.

Lemma SFadd_nan_or_infinity x b :
  SFnan_or_infinity b = true -> SFnan_or_infinity (SF64add x b) = true.
Proof.
  destruct b as [s|s| |s m e]; try discriminate;
    destruct x as [s'|s'| |s' m' e']; try reflexivity;
    destruct s, s'; reflexivity.
Qed.

Lemma SFsub_self_nan c :
  SFnan_or_infinity c = true -> SF64sub c c = S754_nan.
Proof. destruct c as [s|s| |s m e]; try discriminate; try destruct s; reflexivity. Qed.

Lemma std_round_nan_or_infinity c :
  SFnan_or_infinity (Prim2SF c) = true -> std_round c = c.
Proof.
  unfold std_round. destruct (Prim2SF c); try discriminate; reflexivity.
Qed.

Lemma is_nan_Prim2SF v : Prim2SF v = S754_nan -> is_nan v = true.
Proof.
  intros E. unfold is_nan. rewrite FloatAxioms.eqb_spec, E. reflexivity.
Qed.

Lemma SFflush_nan_or_infinity f :
  SFnan_or_infinity f = true -> SFflush f = f.
Proof. destruct f; try discriminate; reflexivity. Qed.

Lemma msDifference_zero_sampleRate sampleRate ppqPerMinute startPpq samplePos :
  (sampleRate =? 0)%float = true ->
  is_nan (msDifference ppqPerMinute
            (noteAbsolutePpq sampleRate ppqPerMinute startPpq samplePos)) = true.
Proof.
  rewrite FloatAxioms.eqb_spec, Prim2SF_zero. intros Z0.
  destruct (SFeqb_zero _ Z0) as [s RATE].
  assert (SECONDS : SFnan_or_infinity
                      (Prim2SF (NoDenormals.div (double_of_int samplePos) sampleRate))
                    = true).
  { rewrite Prim2SF_nd_div, RATE.
    pose proof (SFdiv_by_zero (SFflush (Prim2SF (double_of_int samplePos))) s) as D.
    change (SFflush (S754_zero s)) with (S754_zero s).
    rewrite (SFflush_nan_or_infinity _ D). exact D. }
  assert (OFFSET : SFnan_or_infinity
                     (Prim2SF (NoDenormals.mul
                                 (NoDenormals.div (double_of_int samplePos) sampleRate)
                                 (NoDenormals.div ppqPerMinute 60%float)))
                   = true).
  { rewrite Prim2SF_nd_mul, (SFflush_nan_or_infinity _ SECONDS).
    pose proof (SFmul_nan_or_infinity _
                  (SFflush (Prim2SF (NoDenormals.div ppqPerMinute 60%float)))
                  SECONDS) as M.
    rewrite (SFflush_nan_or_infinity _ M). exact M. }
  assert (NOTE : SFnan_or_infinity
                   (Prim2SF (noteAbsolutePpq sampleRate ppqPerMinute startPpq samplePos))
                 = true).
  { unfold noteAbsolutePpq.
    rewrite Prim2SF_nd_add, (SFflush_nan_or_infinity _ OFFSET).
    pose proof (SFadd_nan_or_infinity (SFflush (Prim2SF startPpq)) _ OFFSET) as A.
    rewrite (SFflush_nan_or_infinity _ A). exact A. }
  apply is_nan_Prim2SF. unfold msDifference, ppqDifference.
  rewrite (std_round_nan_or_infinity _ NOTE).
  rewrite Prim2SF_nd_mul, Prim2SF_nd_sub, (SFflush_nan_or_infinity _ NOTE).
  rewrite (SFsub_self_nan _ NOTE). reflexivity.
Qed.

(** C8, as the code has it.  With a zero sample rate nothing guards or
    clamps the division: while playing with a tempo that is positive and not
    subnormal, a block with a note-on publishes the NaN that the division by
    the zero rate leads to, and only a block without note-ons leaves the
    slot alone. *)
Theorem zero_sampleRate_publishes_nan
    sampleRate playHead positionInfo midiMessages p :
  playing playHead = Some positionInfo ->
  (0 <? bpm positionInfo)%float = true ->
  NoDenormals.is_subnormal (bpm positionInfo) = false ->
  (sampleRate =? 0)%float = true ->
  (noteOns midiMessages <> [] ->
   is_nan (lastTimingDifferenceMs (processBlock sampleRate playHead midiMessages p))
   = true) /\
  (noteOns midiMessages = [] ->
   lastTimingDifferenceMs (processBlock sampleRate playHead midiMessages p)
   = lastTimingDifferenceMs p).
Proof.
  intros PL TEMPO NORMAL RATE.
  rewrite (processBlock_playing _ _ _ _ _ PL), (tempo_accepted _ TEMPO NORMAL). split.
  - intros NE. rewrite loop_last_noteOn by exact NE.
    apply msDifference_zero_sampleRate, RATE.
  - intros SILENT. rewrite loop_silent by exact SILENT. reflexivity.
Qed.

Lemma zero_sampleRate_publishes_nan_witness :
  is_nan
    (lastTimingDifferenceMs
       (processBlock 0 (head_of transport_120_at_4) [noteOn_at 100] earlier_state))
  = true.
Proof.
  apply (zero_sampleRate_publishes_nan 0 (head_of transport_120_at_4)
           transport_120_at_4 [noteOn_at 100] earlier_state);
    [reflexivity | reflexivity | reflexivity | reflexivity | discriminate].
Defined.

(** C8 as stated fails: with a zero sample rate the block is not a no-op for
    the deviation.  The note-on at sample 100 is divided by the zero rate,
    which gives an infinity, and the value published in place of the earlier
    12.5 is the NaN this leads to. *)
Lemma zero_sampleRate_is_divided_by :
  let after :=
    processBlock 0 (head_of transport_120_at_4) [noteOn_at 100] earlier_state in
  (double_of_int 100 / 0)%float = infinity /\
  lastTimingDifferenceMs after =
    msDifference 120 (noteAbsolutePpq 0 120 4 100) /\
  is_nan (lastTimingDifferenceMs after) = true /\
  lastTimingDifferenceMs after <> lastTimingDifferenceMs earlier_state.
Proof.
  repeat split; try (vm_compute; reflexivity).
  vm_compute. intros H.
  apply (f_equal (fun x => (x =? x)%float)) in H. vm_compute in H. discriminate H.
Qed.


(** ** Binary64 rounding, read on [spec_float]

    What follows settles how far a note can lie from its grid line.  The
    facts are proved on the [spec_float] image of the operations: the
    number of binary digits of a mantissa, the alignment of two mantissas
    before a subtraction, and the cases in which [binary_round] has nothing
    to round. *)

Section Binary64.
Local Open Scope Z_scope.

(** The number of binary digits of a mantissa. *)
Definition digits (m : positive) : Z := Zpos (digits2_pos m).

Lemma digits_bounds m : 2 ^ (digits m - 1) <= Zpos m < 2 ^ digits m.
Proof.
  unfold digits. induction m as [m IH|m IH|]; simpl digits2_pos.
  - rewrite Pos2Z.inj_succ, Z.pow_succ_r by lia.
    replace (Z.succ (Zpos (digits2_pos m)) - 1) with (Z.succ (Zpos (digits2_pos m) - 1)) by lia.
    rewrite Z.pow_succ_r by lia. lia.
  - rewrite Pos2Z.inj_succ, Z.pow_succ_r by lia.
    replace (Z.succ (Zpos (digits2_pos m)) - 1) with (Z.succ (Zpos (digits2_pos m) - 1)) by lia.
    rewrite Z.pow_succ_r by lia. lia.
  - simpl. lia.
Qed.

Lemma digits_positive m : 0 < digits m.
Proof. unfold digits. lia. Qed.

Lemma digits_le m k : 0 <= k -> Zpos m < 2 ^ k -> digits m <= k.
Proof.
  intros K H. destruct (Z.le_gt_cases (digits m) k) as [L|G]; [exact L|].
  exfalso. pose proof (digits_bounds m) as [B _].
  assert (2 ^ k <= 2 ^ (digits m - 1)) by (apply Z.pow_le_mono_r; lia). lia.
Qed.

Lemma digits_ge m k : 2 ^ (k - 1) <= Zpos m -> k <= digits m.
Proof.
  intros H. destruct (Z.le_gt_cases k (digits m)) as [L|G]; [exact L|].
  exfalso. pose proof (digits_bounds m) as [_ B]. pose proof (digits_positive m).
  assert (2 ^ digits m <= 2 ^ (k - 1)) by (apply Z.pow_le_mono_r; lia). lia.
Qed.

Lemma digits_unique m k : 2 ^ (k - 1) <= Zpos m < 2 ^ k -> digits m = k.
Proof.
  intros [L U]. 
  assert (0 <= k). { destruct (Z.le_gt_cases 0 k); [assumption|]. rewrite Z.pow_neg_r in U by lia. lia. }
  pose proof (digits_le m k). pose proof (digits_ge m k). lia.
Qed.

Lemma iter_xO_value M j : Zpos (Pos.iter xO M j) = Zpos M * 2 ^ Zpos j.
Proof.
  induction j as [|j IH] using Pos.peano_ind.
  - simpl. lia.
  - rewrite Pos.iter_succ, Pos2Z.inj_succ, Z.pow_succ_r by lia.
    rewrite Pos2Z.inj_xO, IH. lia.
Qed.

(** Aligning a mantissa to a smaller exponent multiplies it by a power
    of two. *)
Lemma shl_align_le M E E' :
  E' <= E -> exists mz, shl_align M E E' = (mz, E') /\ Zpos mz = Zpos M * 2 ^ (E - E').
Proof.
  intros LE. unfold shl_align.
  destruct (E' - E) as [|d|d] eqn:D; try lia.
  - assert (E' = E) by lia. subst E'. exists M. rewrite Z.sub_diag. split; [reflexivity|lia].
  - exists (Pos.iter xO M d). split; [reflexivity|].
    rewrite iter_xO_value. f_equal. f_equal. lia.
Qed.

(** A mantissa that is canonical for its exponent is left alone. *)
Lemma binary_round_aux_canonical s mz ez :
  canonical_mantissa prec emax mz ez = true -> ez <= emax - prec ->
  binary_round_aux prec emax s (Zpos mz) ez loc_Exact = S754_finite s mz ez.
Proof.
  unfold canonical_mantissa. intros C B. apply Z.eqb_eq in C.
  unfold binary_round_aux, shr_fexp.
  change (Zdigits2 (Zpos mz)) with (Zpos (digits2_pos mz)). rewrite C, Z.sub_diag.
  cbn [shr shr_record_of_loc shr_m loc_of_shr_record round_nearest_even shr_r shr_s Zdigits2].
  rewrite C, Z.sub_diag. cbn [shr shr_m].
  apply Z.leb_le in B. rewrite B. reflexivity.
Qed.

(** A mantissa of at most 53 digits whose normal exponent is in range is
    represented exactly. *)
Lemma binary_round_exact s M E :
  digits M <= 53 -> -1074 <= digits M + E - 53 <= 971 ->
  exists mz, binary_round prec emax s M E = S754_finite s mz (digits M + E - 53) /\
             Zpos mz = Zpos M * 2 ^ (53 - digits M).
Proof.
  intros D R. unfold binary_round.
  assert (F : fexp prec emax (Zpos (digits2_pos M) + E) = digits M + E - 53).
  { unfold fexp, emin, prec, emax, digits in *. lia. }
  rewrite F.
  destruct (shl_align_le M E (digits M + E - 53)) as [mz [A V]]; [lia|].
  rewrite A. exists mz. split.
  - apply binary_round_aux_canonical.
    + unfold canonical_mantissa. apply Z.eqb_eq.
      assert (DZ : digits mz = 53).
      { apply digits_unique. rewrite V.
        replace (E - (digits M + E - 53)) with (53 - digits M) by lia.
        pose proof (digits_bounds M) as [L U]. pose proof (digits_positive M).
        replace (2 ^ (53 - 1)) with (2 ^ (digits M - 1) * 2 ^ (53 - digits M))
          by (rewrite <- Z.pow_add_r by lia; f_equal; lia).
        replace (2 ^ 53) with (2 ^ (digits M) * 2 ^ (53 - digits M))
          by (rewrite <- Z.pow_add_r by lia; f_equal; lia).
        assert (0 < 2 ^ (53 - digits M)) by (apply Z.pow_pos_nonneg; lia).
        split; [apply Z.mul_le_mono_nonneg_r; lia | apply Z.mul_lt_mono_pos_r; lia]. }
      unfold digits in DZ. rewrite DZ. unfold fexp, emin, prec, emax. lia.
    + unfold prec, emax. lia.
  - rewrite V. f_equal. f_equal. lia.
Qed.

Lemma valid_finite s m e :
  valid_binary (S754_finite s m e) = true ->
  digits m <= 53 /\ e <= 971 /\ e = Z.max (digits m + e - 53) (-1074).
Proof.
  unfold valid_binary, bounded, canonical_mantissa, fexp, emin, prec, emax, digits.
  intros H. apply andb_true_iff in H. destruct H as [C B].
  apply Z.eqb_eq in C. apply Z.leb_le in B. lia.
Qed.

(** [round_magnitude m e] is the integer [n] with
    [n - 1/2 <= m * 2^e < n + 1/2]. *)
Lemma round_magnitude_spec m e :
  e < 0 ->
  let P := 2 ^ (- e - 1) in
  let n := round_magnitude m e in
  0 < P /\ 2 ^ (- e) = 2 * P /\ 0 <= n /\
  n * (2 * P) <= Zpos m + P < (n + 1) * (2 * P).
Proof.
  intros E P n.
  assert (PP : 0 < P) by (apply Z.pow_pos_nonneg; lia).
  assert (TP : 2 ^ (- e) = 2 * P).
  { unfold P. rewrite <- Z.pow_succ_r by lia. f_equal. lia. }
  unfold n, round_magnitude. rewrite TP. fold P.
  pose proof (Z.mul_div_le (Zpos m + P) (2 * P)) as L.
  pose proof (Z.mul_succ_div_gt (Zpos m + P) (2 * P)) as U.
  assert (0 <= (Zpos m + P) / (2 * P)) by (apply Z.div_pos; lia).
  repeat split; try lia.
Qed.

(** The [spec_float] image of [std_round] on a number with a fraction. *)
Lemma Prim2SF_std_round x s m e :
  Prim2SF x = S754_finite s m e -> e < 0 ->
  Prim2SF (std_round x) =
  let r := binary_normalize prec emax (round_magnitude m e) 0 false in
  if s then SFopp r else r.
Proof.
  intros X E.
  pose proof (Prim2SF_valid x) as V. rewrite X in V.
  destruct (valid_finite _ _ _ V) as [D _].
  destruct (round_magnitude_spec m e E) as [PP [_ [N0 [NL _]]]].
  assert (NM : round_magnitude m e < 2 ^ 53).
  { pose proof (digits_bounds m) as [_ U].
    assert (2 ^ digits m <= 2 ^ 53) by (apply Z.pow_le_mono_r; lia).
    nia. }
  assert (I : Uint63.to_Z (Uint63.of_Z (round_magnitude m e)) = round_magnitude m e).
  { rewrite Uint63.of_Z_spec. apply Z.mod_small.
    change wB with (2 ^ 63). 
    assert (2 ^ 53 < 2 ^ 63) by (apply Z.pow_lt_mono_r; lia). lia. }
  unfold std_round. rewrite X.
  destruct (0 <=? e) eqn:Z; [apply Z.leb_le in Z; lia|].
  destruct s; [rewrite FloatAxioms.opp_spec|]; rewrite of_uint63_spec, I; reflexivity.
Qed.

(** The image of [0.5]. *)
Definition SFhalf : spec_float := S754_finite false 4503599627370496 (-53).

Lemma compare_cont_Gt p q : Pos.compare_cont Eq p q = Gt -> (q < p)%positive.
Proof. intros P. apply Pos.compare_gt_iff. exact P. Qed.

Lemma SFleb_half_finite s mz t :
  (t < -53 \/ (t = -53 /\ Zpos mz <= 2 ^ 52)) ->
  SFleb (SFabs (S754_finite s mz t)) SFhalf = true.
Proof.
  intros H. unfold SFleb, SFabs, SFhalf, SFcompare.
  destruct (t ?= -53) eqn:C.
  - destruct (Pos.compare_cont Eq mz 4503599627370496) eqn:P; try reflexivity.
    exfalso. apply compare_cont_Gt in P. apply Z.compare_eq in C.
    assert (K : 2 ^ 52 = 4503599627370496) by reflexivity. lia.
  - reflexivity.
  - exfalso. apply Z.compare_gt_iff in C. lia.
Qed.

(** A difference of at most half a unit, counted in units of [2^e], is
    at most [0.5] once normalised. *)
Lemma binary_normalize_small D e :
  -53 <= e < 0 -> Z.abs D <= 2 ^ (- e - 1) ->
  SFleb (SFabs (binary_normalize prec emax D e false)) SFhalf = true.
Proof.
  intros E B.
  assert (forall s p, Zpos p <= 2 ^ (- e - 1) ->
            SFleb (SFabs (binary_round prec emax s p e)) SFhalf = true) as R.
  { intros s p Bp.
    assert (PW : 2 ^ (- e) = 2 * 2 ^ (- e - 1)).
    { rewrite <- Z.pow_succ_r by lia. f_equal. lia. }
    assert (Dp : digits p <= - e) by (apply digits_le; lia).
    pose proof (digits_positive p) as DP.
    destruct (binary_round_exact s p e) as [mz [RE V]]; [lia|lia|].
    rewrite RE. apply SFleb_half_finite.
    destruct (Z.eq_dec (digits p) (- e)) as [EQ|NE]; [right|left; lia].
    split; [lia|]. rewrite V, EQ.
    replace (2 ^ 52) with (2 ^ (- e - 1) * 2 ^ (53 - - e))
      by (rewrite <- Z.pow_add_r by lia; f_equal; lia).
    apply Z.mul_le_mono_nonneg_r; [apply Z.pow_nonneg; lia|exact Bp]. }
  destruct D as [|p|p]; simpl binary_normalize.
  - reflexivity.
  - apply R. simpl in B. exact B.
  - apply R. simpl in B. exact B.
Qed.

Lemma SFsub_aligned s m e mz ez :
  e <= ez ->
  SF64sub (S754_finite s m e) (S754_finite s mz ez) =
  binary_normalize prec emax
    (cond_Zopp s (Zpos m) - cond_Zopp s (Zpos mz * 2 ^ (ez - e))) e false.
Proof.
  intros LE. unfold SF64sub, SFsub.
  rewrite Z.min_l by exact LE.
  destruct (shl_align_le mz ez e LE) as [R [A V]]. rewrite A.
  destruct (shl_align_le m e e (Z.le_refl e)) as [M [A' V']]. rewrite A'.
  cbn [fst]. rewrite V, V', Z.sub_diag, Z.mul_1_r. reflexivity.
Qed.

(** The subtraction of the rounded number is exact and within [0.5]. *)
Lemma SFsub_round_bound s m e :
  valid_binary (S754_finite s m e) = true -> e < 0 ->
  let r := binary_normalize prec emax (round_magnitude m e) 0 false in
  SFleb (SFabs (SF64sub (S754_finite s m e) (if s then SFopp r else r))) SFhalf = true.
Proof.
  intros V E r.
  destruct (valid_finite _ _ _ V) as [D [EM C]].
  destruct (round_magnitude_spec m e E) as [PP [TP [N0 [NL NU]]]].
  set (P := 2 ^ (- e - 1)) in *. set (n := round_magnitude m e) in *.
  pose proof (digits_bounds m) as [ML MU]. pose proof (digits_positive m) as MP.
  destruct n as [|q|q] eqn:N; try lia.
  - (* the nearest integer is zero: the difference is the number itself *)
    assert (R : (if s then SFopp r else r) = S754_zero s) by (destruct s; reflexivity).
    rewrite R. unfold SF64sub, SFsub. apply SFleb_half_finite. left.
    destruct (Z.lt_ge_cases e (-53)) as [L|G]; [exact L|exfalso].
    assert (DM : digits m = 53) by lia.
    assert (Zpos m < P) by lia.
    assert (P <= 2 ^ 52) by (apply Z.pow_le_mono_r; lia).
    rewrite DM in ML. simpl in ML. lia.
  - (* the nearest integer is positive *)
    assert (MQ : P <= Zpos m) by nia.
    assert (KD : - e <= digits m).
    { apply digits_ge. exact MQ. }
    assert (DM : digits m = 53) by lia.
    assert (QD : digits q <= 53).
    { apply digits_le; [lia|].
      assert (2 ^ digits m <= 2 ^ 53) by (apply Z.pow_le_mono_r; lia). nia. }
    pose proof (digits_positive q) as QP.
    destruct (binary_round_exact false q 0) as [mz [RE VZ]]; [lia|lia|].
    assert (R : (if s then SFopp r else r) = S754_finite s mz (digits q + 0 - 53)).
    { unfold r. simpl binary_normalize. rewrite RE. destruct s; reflexivity. }
    rewrite R.
    assert (QE : e <= digits q + 0 - 53).
    { destruct (Z.eq_dec e (-53)) as [E53|NE]; [lia|].
      assert (53 + e <= digits q); [|lia].
      apply digits_ge.
      assert (2 ^ 52 = 2 ^ (53 + e - 1) * (2 * P)) as SPLIT.
      { unfold P. rewrite <- Z.pow_succ_r by lia. rewrite <- Z.pow_add_r by lia.
        f_equal. lia. }
      rewrite DM in ML. simpl Z.sub in ML.
      assert (LT : 2 ^ (53 + e - 1) * (2 * P) < (Zpos q + 1) * (2 * P)) by lia.
      apply Z.mul_lt_mono_pos_r in LT; lia. }
    rewrite SFsub_aligned by exact QE.
    apply binary_normalize_small; [lia|].
    assert (VAL : Zpos mz * 2 ^ (digits q + 0 - 53 - e) = Zpos q * (2 * P)).
    { rewrite VZ, <- Z.mul_assoc, <- Z.pow_add_r by lia.
      rewrite <- TP. f_equal. f_equal. lia. }
    rewrite VAL. fold P. destruct s; unfold cond_Zopp; lia.
Qed.


Lemma SFsub_self_finite s m e :
  SF64sub (S754_finite s m e) (S754_finite s m e) = S754_zero false.
Proof.
  rewrite SFsub_aligned by lia.
  rewrite Z.sub_diag, Z.pow_0_r, Z.mul_1_r, Z.sub_diag. reflexivity.
Qed.

Lemma is_finite_cases x :
  is_finite x = true ->
  (exists s, Prim2SF x = S754_zero s) \/
  (exists s m e, Prim2SF x = S754_finite s m e).
Proof.
  unfold is_finite, is_nan, is_infinity.
  rewrite !FloatAxioms.eqb_spec, FloatAxioms.abs_spec.
  change (Prim2SF infinity) with (S754_infinity false).
  destruct (Prim2SF x) as [s|s| |s m e]; intros H.
  - left. exists s. reflexivity.
  - destruct s; discriminate H.
  - discriminate H.
  - right. exists s, m, e. reflexivity.
Qed.

(** The distance to the rounded number, with plain binary64 operations. *)
Lemma round_distance_within_half x :
  is_finite x = true ->
  SFleb (SFabs (SF64sub (Prim2SF x) (Prim2SF (std_round x)))) SFhalf = true.
Proof.
  intros F.
  destruct (is_finite_cases x F) as [[s X]|[s [m [e X]]]].
  - assert (R : std_round x = x) by (unfold std_round; rewrite X; reflexivity).
    rewrite R, X. destruct s; reflexivity.
  - destruct (Z.le_gt_cases 0 e) as [NN|NEG].
    + assert (R : std_round x = x).
      { unfold std_round. rewrite X. apply Z.leb_le in NN. rewrite NN. reflexivity. }
      rewrite R, X, SFsub_self_finite. reflexivity.
    + rewrite (Prim2SF_std_round x s m e X NEG), X.
      apply SFsub_round_bound; [|exact NEG].
      rewrite <- X. apply Prim2SF_valid.
Qed.

(** *** With denormals flushed *)

Lemma SFflush_within_half f :
  SFleb (SFabs f) SFhalf = true -> SFleb (SFabs (SFflush f)) SFhalf = true.
Proof.
  destruct f as [s|s| |s m e]; try (intros H; exact H).
  unfold SFflush. destruct (Zpos (digits2_pos m) =? prec); [intros H; exact H|].
  intros _. reflexivity.
Qed.

Lemma shifted_digits M mz :
  digits M <= 53 -> Zpos mz = Zpos M * 2 ^ (53 - digits M) -> digits mz = 53.
Proof.
  intros D V. apply digits_unique. rewrite V.
  pose proof (digits_bounds M) as [L U]. pose proof (digits_positive M).
  replace (2 ^ (53 - 1)) with (2 ^ (digits M - 1) * 2 ^ (53 - digits M))
    by (rewrite <- Z.pow_add_r by lia; f_equal; lia).
  replace (2 ^ 53) with (2 ^ (digits M) * 2 ^ (53 - digits M))
    by (rewrite <- Z.pow_add_r by lia; f_equal; lia).
  assert (0 < 2 ^ (53 - digits M)) by (apply Z.pow_pos_nonneg; lia).
  split; [apply Z.mul_le_mono_nonneg_r; lia | apply Z.mul_lt_mono_pos_r; lia].
Qed.

Lemma SFflush_normal s m e :
  digits m = 53 -> SFflush (S754_finite s m e) = S754_finite s m e.
Proof.
  unfold digits, SFflush. intros D. rewrite D. reflexivity.
Qed.

(** An integer below [2^53] is not subnormal. *)
Lemma SFflush_integer n :
  0 <= n < 2 ^ 53 ->
  SFflush (binary_normalize prec emax n 0 false) = binary_normalize prec emax n 0 false.
Proof.
  intros [N0 N]. destruct n as [|q|q]; try lia; [reflexivity|].
  simpl binary_normalize.
  assert (QD : digits q <= 53) by (apply digits_le; lia).
  pose proof (digits_positive q) as QP.
  destruct (binary_round_exact false q 0) as [mz [RE VZ]]; [lia|lia|].
  rewrite RE. apply SFflush_normal. apply (shifted_digits q mz QD VZ).
Qed.

Lemma SFflush_opp f : SFflush (SFopp f) = SFopp (SFflush f).
Proof.
  destruct f as [s|s| |s m e]; try reflexivity.
  unfold SFflush, SFopp. destruct (Zpos (digits2_pos m) =? prec); reflexivity.
Qed.

(** [std::round] never returns a subnormal number. *)
Lemma SFflush_std_round x :
  is_finite x = true ->
  SFflush (Prim2SF (std_round x)) =
  match Prim2SF x with
  | S754_finite s m e => if 0 <=? e then Prim2SF x else Prim2SF (std_round x)
  | _ => Prim2SF x
  end.
Proof.
  intros F.
  destruct (is_finite_cases x F) as [[s X]|[s [m [e X]]]].
  - assert (R : std_round x = x) by (unfold std_round; rewrite X; reflexivity).
    rewrite R, X. reflexivity.
  - pose proof (Prim2SF_valid x) as V. rewrite X in V.
    destruct (valid_finite _ _ _ V) as [D [EM C]].
    rewrite X. destruct (Z.leb_spec 0 e) as [NN|NEG].
    + assert (R : std_round x = x).
      { unfold std_round. rewrite X. apply Z.leb_le in NN. rewrite NN. reflexivity. }
      rewrite R, X. apply SFflush_normal. lia.
    + rewrite (Prim2SF_std_round x s m e X NEG).
      destruct (round_magnitude_spec m e NEG) as [PP [_ [N0 [NL _]]]].
      assert (NM : round_magnitude m e < 2 ^ 53).
      { pose proof (digits_bounds m) as [_ U].
        assert (2 ^ digits m <= 2 ^ 53) by (apply Z.pow_le_mono_r; lia).
        nia. }
      cbv zeta. destruct s; [rewrite SFflush_opp|];
        rewrite SFflush_integer by lia; reflexivity.
Qed.

(** A subnormal number is rounded to the zero of its sign. *)
Lemma std_round_subnormal x s m e :
  Prim2SF x = S754_finite s m e -> digits m <> 53 ->
  Prim2SF (std_round x) = S754_zero s.
Proof.
  intros X SUB.
  pose proof (Prim2SF_valid x) as V. rewrite X in V.
  destruct (valid_finite _ _ _ V) as [D [EM C]].
  assert (E : e = -1074) by lia.
  rewrite (Prim2SF_std_round x s m e X) by lia.
  assert (N : round_magnitude m e = 0).
  { unfold round_magnitude. subst e.
    pose proof (digits_bounds m) as [_ U].
    assert (2 ^ digits m <= 2 ^ 52) by (apply Z.pow_le_mono_r; lia).
    assert (2 ^ 52 <= 2 ^ (- -1074 - 1)) by (apply Z.pow_le_mono_r; lia).
    assert (TP : 2 ^ (- -1074) = 2 * 2 ^ (- -1074 - 1)).
    { rewrite <- Z.pow_succ_r by lia. f_equal. }
    apply Z.div_small. lia. }
  rewrite N. destruct s; reflexivity.
Qed.

Lemma Prim2SF_ppqDifference x :
  Prim2SF (ppqDifference x) =
  SFflush (SF64sub (SFflush (Prim2SF x)) (SFflush (Prim2SF (std_round x)))).
Proof. unfold ppqDifference. apply Prim2SF_nd_sub. Qed.

Lemma SFleb_half_ppqDifference x :
  is_finite x = true ->
  SFleb (SFabs (Prim2SF (ppqDifference x))) SFhalf = true.
Proof.
  intros F. rewrite Prim2SF_ppqDifference.
  destruct (is_finite_cases x F) as [[s X]|[s [m [e X]]]].
  - assert (R : std_round x = x) by (unfold std_round; rewrite X; reflexivity).
    rewrite R, X. destruct s; reflexivity.
  - destruct (Z.eq_dec (digits m) 53) as [NORMAL|SUB].
    + apply SFflush_within_half.
      pose proof (round_distance_within_half x F) as B.
      pose proof (SFflush_std_round x F) as RF. rewrite X in RF.
      rewrite X, (SFflush_normal s m e NORMAL).
      destruct (0 <=? e) eqn:E.
      * rewrite RF. rewrite SFsub_self_finite. reflexivity.
      * rewrite RF. rewrite X in B. exact B.
    + rewrite (std_round_subnormal x s m e X SUB), X.
      assert (FL : SFflush (S754_finite s m e) = S754_zero s).
      { unfold SFflush. unfold digits in SUB.
        destruct (Z.eqb_spec (Zpos (digits2_pos m)) prec) as [E|_]; [|reflexivity].
        exfalso. apply SUB. exact E. }
      rewrite FL. destruct s; reflexivity.
Qed.

(** X1. For every finite note position, the distance to the grid line that
    [std::round] picks, computed by the subtraction of the source, is at most
    0.5 quarter notes. *)
Theorem ppqDifference_within_half x :
  is_finite x = true -> (abs (ppqDifference x) <=? 0.5)%float = true.
Proof.
  intros F. rewrite FloatAxioms.leb_spec, FloatAxioms.abs_spec.
  change (Prim2SF 0.5) with SFhalf.
  apply SFleb_half_ppqDifference, F.
Qed.

(** A number that is not a NaN and carries the sign [s]. *)
Definition SFsigned (s : bool) (f : spec_float) : Prop :=
  match f with
  | S754_zero s' | S754_infinity s' | S754_finite s' _ _ => s' = s
  | S754_nan => False
  end.

Lemma iter_pos_invariant {A} (I : A -> Prop) (f : A -> A) :
  (forall a, I a -> I (f a)) -> forall n a, I a -> I (iter_pos f n a).
Proof.
  intros STEP. induction n as [n IH|n IH|]; intros a Ia; simpl; auto.
Qed.

Lemma shr_1_nonneg mrs : 0 <= shr_m mrs -> 0 <= shr_m (shr_1 mrs).
Proof.
  destruct mrs as [m r s]. simpl. destruct m as [|p|p]; try destruct p; simpl; lia.
Qed.

Lemma shr_nonneg mrs e n : 0 <= shr_m mrs -> 0 <= shr_m (fst (shr mrs e n)).
Proof.
  intros H. unfold shr. destruct n; simpl; try exact H.
  apply (iter_pos_invariant (fun mrs => 0 <= shr_m mrs)); [apply shr_1_nonneg|exact H].
Qed.

Lemma shr_fexp_nonneg m e l : 0 <= m -> 0 <= shr_m (fst (shr_fexp prec emax m e l)).
Proof.
  intros H. unfold shr_fexp. apply shr_nonneg.
  destruct l as [|[| |]]; exact H.
Qed.

Lemma round_nearest_even_nonneg m l : 0 <= m -> 0 <= round_nearest_even m l.
Proof.
  intros H. unfold round_nearest_even.
  destruct l as [|[| |]]; try destruct (Z.even m); lia.
Qed.

Lemma binary_round_aux_signed s mx ex lx :
  0 <= mx -> SFsigned s (binary_round_aux prec emax s mx ex lx).
Proof.
  intros H. unfold binary_round_aux.
  pose proof (shr_fexp_nonneg mx ex lx H) as H1.
  destruct (shr_fexp prec emax mx ex lx) as [mrs' e'].
  pose proof (shr_fexp_nonneg _ e' loc_Exact
                (round_nearest_even_nonneg _ (loc_of_shr_record mrs') H1)) as H2.
  destruct (shr_fexp prec emax _ e' loc_Exact) as [mrs'' e''].
  simpl fst in H2. destruct (shr_m mrs'') as [|p|p].
  - reflexivity.
  - destruct (e'' <=? emax - prec); reflexivity.
  - lia.
Qed.

Lemma SFdiv_core_nonneg m1 e1 m2 e2 :
  0 <= fst (fst (SFdiv_core_binary prec emax (Zpos m1) e1 (Zpos m2) e2)).
Proof.
  unfold SFdiv_core_binary.
  set (s := _ - _ - _).
  set (m' := match s with Zpos _ => Z.shiftl (Zpos m1) s | Z0 => Zpos m1 | Zneg _ => 0 end).
  assert (M : 0 <= m').
  { unfold m'. destruct s; try lia. apply Z.shiftl_nonneg. lia. }
  pose proof (Z.div_pos m' (Zpos m2) M ltac:(lia)) as Q.
  unfold Z.div in Q. destruct (Z.div_eucl m' (Zpos m2)) as [q r]. exact Q.
Qed.

Lemma SFdiv_positive_signed mx ex b :
  SFltb (S754_zero false) b = true ->
  SFsigned false (SF64div (S754_finite false mx ex) b).
Proof.
  unfold SFltb, SFcompare.
  destruct b as [s|s| |s m e]; try discriminate; destruct s; try discriminate; intros _.
  - reflexivity.
  - unfold SF64div, SFdiv.
    pose proof (SFdiv_core_nonneg mx ex m e) as Q.
    destruct (SFdiv_core_binary prec emax (Zpos mx) ex (Zpos m) e) as [[mz ez] lz].
    apply binary_round_aux_signed. exact Q.
Qed.

Lemma SFmul_finite_signed s m e f :
  SFsigned false f -> SFsigned s (SF64mul (S754_finite s m e) f).
Proof.
  destruct f as [s'|s'| |s' m' e']; simpl; intros H; try contradiction; subst s'.
  - destruct s; reflexivity.
  - destruct s; reflexivity.
  - rewrite xorb_false_r. apply binary_round_aux_signed. lia.
Qed.

Lemma SFsigned_true_leb_zero f :
  SFsigned true f -> SFleb f (S754_zero false) = true.
Proof. destruct f; simpl; intros H; try contradiction; subst; reflexivity. Qed.

Lemma SFsigned_false_zero_leb f :
  SFsigned false f -> SFleb (S754_zero false) f = true.
Proof. destruct f; simpl; intros H; try contradiction; subst; reflexivity. Qed.

Lemma SFflush_signed s f : SFsigned s f -> SFsigned s (SFflush f).
Proof.
  destruct f as [s'|s'| |s' m e]; try (intros H; exact H).
  unfold SFflush. destruct (Zpos (digits2_pos m) =? prec); intros H; exact H.
Qed.

(** The factor [60000.0 / bpm] of a positive tempo is never negative and
    never a NaN. *)
Lemma factor_signed tempo :
  (0 <? tempo)%float = true ->
  SFsigned false (Prim2SF (NoDenormals.div 60000%float tempo)).
Proof.
  rewrite FloatAxioms.ltb_spec, Prim2SF_zero, Prim2SF_nd_div.
  change (SFflush (Prim2SF 60000)) with (S754_finite false 8246337208320000 (-37)).
  intros TEMPO. apply SFflush_signed.
  destruct (Prim2SF tempo) as [s|s| |s m e] eqn:T;
    try (apply SFdiv_positive_signed; exact TEMPO).
  unfold SFflush. destruct (Zpos (digits2_pos m) =? prec).
  - apply SFdiv_positive_signed. exact TEMPO.
  - revert TEMPO. unfold SFltb, SFcompare. destruct s; [discriminate|].
    intros _. reflexivity.
Qed.

(** The classes of the published value, by the class of the distance. *)
Lemma msDifference_classes tempo x :
  (0 <? tempo)%float = true -> is_finite x = true ->
  match Prim2SF (ppqDifference x) with
  | S754_zero _ =>
      (exists s, Prim2SF (msDifference tempo x) = S754_zero s) \/
      Prim2SF (msDifference tempo x) = S754_nan
  | S754_finite s _ _ => SFsigned s (Prim2SF (msDifference tempo x))
  | _ => False
  end.
Proof.
  intros TEMPO FIN.
  pose proof (SFleb_half_ppqDifference x FIN) as B.
  pose proof (factor_signed tempo TEMPO) as FACTOR.
  apply SFflush_signed in FACTOR.
  assert (FL : SFflush (Prim2SF (ppqDifference x)) = Prim2SF (ppqDifference x)).
  { rewrite Prim2SF_ppqDifference. apply SFflush_idempotent. }
  unfold msDifference. rewrite Prim2SF_nd_mul, FL.
  destruct (Prim2SF (ppqDifference x)) as [s|s| |s m e];
    try (destruct s; discriminate B); try discriminate B.
  - destruct (SFflush (Prim2SF (NoDenormals.div 60000%float tempo)))
      as [s'|s'| |s' m' e']; simpl in *; try contradiction; eauto.
  - apply SFflush_signed, SFmul_finite_signed, FACTOR.
Qed.

(** X2. With a positive tempo and a finite note position the conversion to
    milliseconds never turns the sign around and never yields a NaN: an
    early note (negative distance) is published as a value [<= 0], a late
    note as a value [>= 0]. *)
Theorem msDifference_never_opposes (tempo x : float) :
  (0 <? tempo)%float = true -> is_finite x = true ->
  ((ppqDifference x <? 0)%float = true ->
     (msDifference tempo x <=? 0)%float = true) /\
  ((0 <? ppqDifference x)%float = true ->
     (0 <=? msDifference tempo x)%float = true).
Proof.
  intros TEMPO FIN.
  pose proof (msDifference_classes tempo x TEMPO FIN) as C.
  rewrite !FloatAxioms.ltb_spec, !FloatAxioms.leb_spec, Prim2SF_zero.
  destruct (Prim2SF (ppqDifference x)) as [s|s| |s m e]; try contradiction.
  - split; intros H; destruct s; discriminate H.
  - split; intros H; destruct s; try discriminate H.
    + apply SFsigned_true_leb_zero, C.
    + apply SFsigned_false_zero_leb, C.
Qed.

End Binary64.

Lemma ppqDifference_within_half_witness :
  is_finite 4.75%float = true /\
  (abs (ppqDifference 4.75) <=? 0.5)%float = true.
Proof.
  split; [reflexivity|].
  apply (ppqDifference_within_half 4.75%float). reflexivity.
Defined.

Lemma msDifference_never_opposes_witness :
  (ppqDifference 4.75 <? 0)%float = true /\
  (msDifference 120 4.75 <=? 0)%float = true.
Proof.
  split; [reflexivity|].
  apply (proj1 (msDifference_never_opposes 120%float 4.75%float eq_refl eq_refl)).
  reflexivity.
Defined.

(** ** What a block makes of its inputs *)

(** A block with a note-on, processed while playing with a positive tempo,
    ends in a state that is known in full. *)
Lemma loop_with_noteOn sampleRate ppqPerMinute startPpq midiMessages p :
  noteOns midiMessages <> [] ->
  fold_left (noteStep sampleRate ppqPerMinute startPpq) midiMessages p =
  {| lastTimingDifferenceMs :=
       msDifference ppqPerMinute
         (noteAbsolutePpq sampleRate ppqPerMinute startPpq
            (samplePosition (last (noteOns midiMessages) (noteOn_at 0))));
     currentPpqPosition := currentPpqPosition p |}.
Proof.
  intros NE.
  pose proof (loop_last_noteOn sampleRate ppqPerMinute startPpq midiMessages p NE) as L.
  pose proof (loop_currentPpqPosition sampleRate ppqPerMinute startPpq midiMessages p) as C.
  destruct (fold_left _ midiMessages p) as [d c]. simpl in L, C.
  rewrite L, C. reflexivity.
Qed.

(** X4. Events that are not note-ons (note-offs, controllers, ...) have no
    influence on what a block publishes: dropping them from the MIDI buffer
    gives the same state, in every branch. *)
Theorem processBlock_reads_only_noteOns sampleRate playHead midiMessages p :
  processBlock sampleRate playHead midiMessages p =
  processBlock sampleRate playHead (noteOns midiMessages) p.
Proof.
  destruct (playing playHead) as [positionInfo|] eqn:PL.
  - rewrite !(processBlock_playing _ _ _ _ _ PL).
    destruct (NoDenormals.ltb 0 (bpm positionInfo)); [|reflexivity].
    rewrite loop_noteOns. reflexivity.
  - rewrite !(processBlock_stopped _ _ _ _ PL). reflexivity.
Qed.

(** X5. The position slot is a function of the play head alone: neither the
    sample rate, nor the MIDI buffer, nor the state before the block can
    change what is published as [currentPpqPosition]. *)
Theorem position_depends_on_playHead_only
    playHead sampleRate sampleRate' midiMessages midiMessages' p p' :
  currentPpqPosition (processBlock sampleRate playHead midiMessages p) =
  currentPpqPosition (processBlock sampleRate' playHead midiMessages' p').
Proof.
  destruct (playing playHead) as [positionInfo|] eqn:PL.
  - rewrite !(processBlock_playing _ _ _ _ _ PL).
    destruct (NoDenormals.ltb 0 (bpm positionInfo)); [|reflexivity].
    rewrite !loop_currentPpqPosition. reflexivity.
  - rewrite !(processBlock_stopped _ _ _ _ PL). reflexivity.
Qed.

(** X6. A block that holds a note-on overwrites both slots: what it
    publishes does not depend on the state left by earlier blocks, in any
    branch. *)
Theorem noteOn_block_forgets_earlier_state
    sampleRate playHead midiMessages p p' :
  noteOns midiMessages <> [] ->
  processBlock sampleRate playHead midiMessages p =
  processBlock sampleRate playHead midiMessages p'.
Proof.
  intros NE. destruct (playing playHead) as [positionInfo|] eqn:PL.
  - rewrite !(processBlock_playing _ _ _ _ _ PL).
    destruct (NoDenormals.ltb 0 (bpm positionInfo)); [|reflexivity].
    rewrite !loop_with_noteOn by exact NE. reflexivity.
  - rewrite !(processBlock_stopped _ _ _ _ PL). reflexivity.
Qed.

Lemma noteOn_block_forgets_earlier_state_witness :
  processBlock 48000 (head_of transport_120_at_4) [noteOff_at 1; noteOn_at 3000]
    earlier_state =
  processBlock 48000 (head_of transport_120_at_4) [noteOff_at 1; noteOn_at 3000]
    {| lastTimingDifferenceMs := -7; currentPpqPosition := -1 |}.
Proof.
  apply (noteOn_block_forgets_earlier_state 48000 (head_of transport_120_at_4)
           [noteOff_at 1; noteOn_at 3000]).
  discriminate.
Defined.

(** X7. Processing the same block a second time changes nothing: the state
    a block publishes is a fixed point of that block. *)
Theorem processBlock_idempotent sampleRate playHead midiMessages p :
  processBlock sampleRate playHead midiMessages
    (processBlock sampleRate playHead midiMessages p) =
  processBlock sampleRate playHead midiMessages p.
Proof.
  destruct (playing playHead) as [positionInfo|] eqn:PL.
  - rewrite !(processBlock_playing _ _ _ _ _ PL).
    destruct (NoDenormals.ltb 0 (bpm positionInfo)); [|reflexivity].
    destruct (noteOns midiMessages) as [|metadata rest] eqn:ON.
    + rewrite !loop_silent by exact ON. reflexivity.
    + rewrite !loop_with_noteOn by (rewrite ON; discriminate). reflexivity.
  - rewrite !(processBlock_stopped _ _ _ _ PL). reflexivity.
Qed.

(** ** Successive blocks

    The host calls [processBlock] once per audio block; a run of blocks
    threads the two slots through the calls. *)

Record Block : Type := {
  blockSampleRate : float;
  blockPlayHead : option AudioPlayHead;
  blockMidi : MidiBuffer
}.

Definition processBlocks (blocks : list Block) (p : PocketAudioProcessor.t) :
    PocketAudioProcessor.t :=
  fold_left
    (fun p b => processBlock (blockSampleRate b) (blockPlayHead b) (blockMidi b) p)
    blocks p.

(** A block without note-on, processed while playing with a tempo that is
    positive and not subnormal. *)
Definition silentPlaying (b : Block) : Prop :=
  exists positionInfo,
    playing (blockPlayHead b) = Some positionInfo /\
    (0 <? bpm positionInfo)%float = true /\
    NoDenormals.is_subnormal (bpm positionInfo) = false /\
    noteOns (blockMidi b) = [].

(** X8. The deviation is a last-known value: however many blocks without
    note-on follow while the transport keeps playing with a tempo that is
    positive and not subnormal, [lastTimingDifferenceMs] stays what it
    was. *)
Theorem deviation_survives_silent_blocks blocks p :
  Forall silentPlaying blocks ->
  lastTimingDifferenceMs (processBlocks blocks p) = lastTimingDifferenceMs p.
Proof.
  unfold processBlocks. intros SILENT. revert p.
  induction SILENT as [|b rest [positionInfo [PL [TEMPO [NORMAL ON]]]] _ IH];
    intros p; simpl.
  - reflexivity.
  - rewrite IH, (processBlock_playing _ _ _ _ _ PL), (tempo_accepted _ TEMPO NORMAL).
    rewrite loop_silent by exact ON. reflexivity.
Qed.

Definition silent_block_at (ppq : float) : Block :=
  {| blockSampleRate := 48000;
     blockPlayHead := head_of {| bpm := 120; ppqPosition := ppq; isPlaying := true |};
     blockMidi := [noteOff_at 12] |}.

Lemma deviation_survives_silent_blocks_witness :
  processBlocks [silent_block_at 4; silent_block_at 4.5; silent_block_at 5] earlier_state
  = {| lastTimingDifferenceMs := 12.5; currentPpqPosition := 5 |} /\
  lastTimingDifferenceMs
    (processBlocks [silent_block_at 4; silent_block_at 4.5; silent_block_at 5]
       earlier_state)
  = lastTimingDifferenceMs earlier_state.
Proof.
  split; [reflexivity|].
  apply deviation_survives_silent_blocks.
  repeat constructor;
    (eexists; split; [reflexivity|split; [reflexivity|split; reflexivity]]).
Defined.

(** ** From a block to the display *)

(** What the editor's constructor puts in the three labels the timer
    refreshes ([setText] of lines 22, 32 and 38 of PluginEditor.cpp). *)
Definition constructedLabels : PocketAudioProcessorEditor.Labels :=
  {| PocketAudioProcessorEditor.earlyMsLabel := EmptyString;
     PocketAudioProcessorEditor.lateMsLabel := EmptyString;
     PocketAudioProcessorEditor.playheadLabel := "Stopped"%string |}.

Section Display.
Import PocketAudioProcessorEditor.
Variable String_of_double : float -> nat -> string.

Lemma timerCallback_labels audioProcessor :
  timerCallback String_of_double audioProcessor =
  {| earlyMsLabel :=
       fst (timingStrings String_of_double (lastTimingDifferenceMs audioProcessor));
     lateMsLabel :=
       snd (timingStrings String_of_double (lastTimingDifferenceMs audioProcessor));
     playheadLabel :=
       playheadString String_of_double (currentPpqPosition audioProcessor) |}.
Proof.
  unfold timerCallback.
  destruct (timingStrings String_of_double (lastTimingDifferenceMs audioProcessor)).
  reflexivity.
Qed.

Lemma timingStrings_nan differenceMs :
  is_nan differenceMs = true ->
  timingStrings String_of_double differenceMs = (EmptyString, EmptyString).
Proof.
  unfold is_nan, timingStrings.
  rewrite FloatAxioms.eqb_spec, !FloatAxioms.ltb_spec.
  unfold SFeqb, SFltb, SFcompare.
  destruct (Prim2SF differenceMs) as [s|s| |s m e]; try destruct s;
    try discriminate.
  - intros _. destruct (Prim2SF (- threshold)); reflexivity.
  - rewrite Z.compare_refl, Pos.compare_cont_refl. discriminate.
  - rewrite Z.compare_refl, Pos.compare_cont_refl. discriminate.
Qed.

Lemma timingStrings_exclusive differenceMs :
  fst (timingStrings String_of_double differenceMs) = EmptyString \/
  snd (timingStrings String_of_double differenceMs) = EmptyString.
Proof.
  unfold timingStrings.
  destruct (differenceMs <? - threshold)%float; [right; reflexivity|].
  destruct (threshold <? differenceMs)%float; left; reflexivity.
Qed.
End Display.

Lemma negative_not_leb_zero (x : float) :
  (x <? 0)%float = true -> (0 <=? x)%float = false.
Proof.
  rewrite FloatAxioms.leb_spec, FloatAxioms.ltb_spec, Prim2SF_zero.
  unfold SFleb, SFltb, SFcompare.
  destruct (Prim2SF x) as [s|s| |s m e]; try destruct s; congruence.
Qed.

Lemma processBlock_playing_position
    sampleRate playHead positionInfo midiMessages p :
  playing playHead = Some positionInfo ->
  currentPpqPosition (processBlock sampleRate playHead midiMessages p) =
  ppqPosition positionInfo.
Proof.
  intros PL. rewrite (processBlock_playing _ _ _ _ _ PL).
  destruct (NoDenormals.ltb 0 (bpm positionInfo)); [|reflexivity].
  apply loop_currentPpqPosition.
Qed.

(** X9. The two timing labels are never filled together: whatever value the
    timer reads, the early label or the late label is set to the empty
    string. *)
Theorem timing_labels_exclusive
    (String_of_double : float -> nat -> string) (audioProcessor : PocketAudioProcessor.t) :
  let labels := PocketAudioProcessorEditor.timerCallback String_of_double audioProcessor in
  PocketAudioProcessorEditor.earlyMsLabel labels = EmptyString \/
  PocketAudioProcessorEditor.lateMsLabel labels = EmptyString.
Proof.
  intros labels. unfold labels. rewrite timerCallback_labels. simpl.
  apply timingStrings_exclusive.
Qed.

(** X10. After a block processed without a play head, with a failed
    position query or with a stopped transport, the next timer tick shows
    what the editor's constructor had put in the labels: no early value, no
    late value, "Stopped" -- whatever the MIDI buffer held and whatever
    was shown before. *)
Theorem stopped_block_shows_constructed_labels
    (String_of_double : float -> nat -> string)
    sampleRate playHead midiMessages p :
  playing playHead = None ->
  PocketAudioProcessorEditor.timerCallback String_of_double
    (processBlock sampleRate playHead midiMessages p)
  = constructedLabels.
Proof.
  intros PL. rewrite (processBlock_stopped _ _ _ _ PL). reflexivity.
Qed.

Lemma stopped_block_shows_constructed_labels_witness :
  PocketAudioProcessorEditor.timerCallback one_decimal_stub
    (processBlock 48000 None [noteOn_at 3000] earlier_state)
  = constructedLabels.
Proof.
  apply (stopped_block_shows_constructed_labels one_decimal_stub 48000 None).
  reflexivity.
Defined.

(** X11. While the play head reports [isPlaying], the playhead label is
    decided by the reported position alone: "PPQ: " followed by the position
    with three decimals when the position is [>= 0], and "Stopped" when it
    is negative (or a NaN), although the transport is playing. *)
Theorem playhead_label_follows_position
    (String_of_double : float -> nat -> string)
    sampleRate playHead positionInfo midiMessages p :
  playing playHead = Some positionInfo ->
  let label :=
    PocketAudioProcessorEditor.playheadLabel
      (PocketAudioProcessorEditor.timerCallback String_of_double
         (processBlock sampleRate playHead midiMessages p)) in
  label =
    (if (0 <=? ppqPosition positionInfo)%float
     then ("PPQ: " ++ String_of_double (ppqPosition positionInfo) 3)%string
     else "Stopped"%string) /\
  ((ppqPosition positionInfo <? 0)%float = true -> label = "Stopped"%string).
Proof.
  intros PL label.
  assert (L : label =
              if (0 <=? ppqPosition positionInfo)%float
              then ("PPQ: " ++ String_of_double (ppqPosition positionInfo) 3)%string
              else "Stopped"%string).
  { unfold label. rewrite timerCallback_labels. simpl.
    rewrite (processBlock_playing_position _ _ _ _ _ PL). reflexivity. }
  split; [exact L|].
  intros NEG. rewrite L, (negative_not_leb_zero _ NEG). reflexivity.
Qed.

Lemma playhead_label_follows_position_witness :
  PocketAudioProcessorEditor.playheadLabel
    (PocketAudioProcessorEditor.timerCallback one_decimal_stub
       (processBlock 48000 (head_of transport_negative_position) [noteOn_at 0]
          earlier_state))
  = "Stopped"%string.
Proof.
  apply (proj2 (playhead_label_follows_position one_decimal_stub 48000
                  (head_of transport_negative_position) transport_negative_position
                  [noteOn_at 0] earlier_state eq_refl)).
  reflexivity.
Defined.

(** X12. While playing with a tempo that is not positive (zero, negative or
    a NaN), the next timer tick shows neither an early nor a late value,
    whatever notes the block held. *)
Theorem invalid_tempo_shows_no_deviation
    (String_of_double : float -> nat -> string)
    sampleRate playHead positionInfo midiMessages p :
  playing playHead = Some positionInfo ->
  (0 <? bpm positionInfo)%float = false ->
  let labels :=
    PocketAudioProcessorEditor.timerCallback String_of_double
      (processBlock sampleRate playHead midiMessages p) in
  PocketAudioProcessorEditor.earlyMsLabel labels = EmptyString /\
  PocketAudioProcessorEditor.lateMsLabel labels = EmptyString.
Proof.
  intros PL TEMPO labels. unfold labels.
  rewrite (processBlock_playing _ _ _ _ _ PL), (nd_not_positive _ TEMPO).
  split; reflexivity.
Qed.

Lemma invalid_tempo_shows_no_deviation_witness :
  let labels :=
    PocketAudioProcessorEditor.timerCallback one_decimal_stub
      (processBlock 48000
         (head_of {| bpm := nan; ppqPosition := 2; isPlaying := true |})
         [noteOn_at 3000] earlier_state) in
  PocketAudioProcessorEditor.earlyMsLabel labels = EmptyString /\
  PocketAudioProcessorEditor.lateMsLabel labels = EmptyString.
Proof.
  apply (invalid_tempo_shows_no_deviation one_decimal_stub 48000
           (head_of {| bpm := nan; ppqPosition := 2; isPlaying := true |})
           {| bpm := nan; ppqPosition := 2; isPlaying := true |});
    reflexivity.
Defined.

(** X13. The NaN that a zero sample rate leads to is shown as no deviation
    at all: after such a block with a note-on, the next timer tick leaves
    both timing labels empty. *)
Theorem zero_sampleRate_shows_no_deviation
    (String_of_double : float -> nat -> string)
    sampleRate playHead positionInfo midiMessages p :
  playing playHead = Some positionInfo ->
  (0 <? bpm positionInfo)%float = true ->
  (sampleRate =? 0)%float = true ->
  noteOns midiMessages <> [] ->
  let labels :=
    PocketAudioProcessorEditor.timerCallback String_of_double
      (processBlock sampleRate playHead midiMessages p) in
  PocketAudioProcessorEditor.earlyMsLabel labels = EmptyString /\
  PocketAudioProcessorEditor.lateMsLabel labels = EmptyString.
Proof.
  intros PL TEMPO RATE NE labels. unfold labels.
  rewrite timerCallback_labels. simpl.
  rewrite (processBlock_playing _ _ _ _ _ PL).
  destruct (NoDenormals.ltb 0 (bpm positionInfo)).
  - rewrite loop_last_noteOn by exact NE.
    rewrite timingStrings_nan by (apply msDifference_zero_sampleRate, RATE).
    split; reflexivity.
  - split; reflexivity.
Qed.

Lemma zero_sampleRate_shows_no_deviation_witness :
  let labels :=
    PocketAudioProcessorEditor.timerCallback one_decimal_stub
      (processBlock 0 (head_of transport_120_at_4) [noteOn_at 100] earlier_state) in
  PocketAudioProcessorEditor.earlyMsLabel labels = EmptyString /\
  PocketAudioProcessorEditor.lateMsLabel labels = EmptyString.
Proof.
  apply (zero_sampleRate_shows_no_deviation one_decimal_stub 0
           (head_of transport_120_at_4) transport_120_at_4 [noteOn_at 100]
           earlier_state);
    [reflexivity | reflexivity | reflexivity | discriminate].
Defined.


(** ** A note on a grid line *)




Section OnGrid.
Import PocketAudioProcessorEditor.
Variable String_of_double : float -> nat -> string.

End OnGrid.



(** ** The audio buffer of a block *)

Module AudioSide.

(** [juce::AudioBuffer<float>]: its channels, each a run of
    [getNumSamples ()] samples. *)
Definition AudioBuffer : Type := list (list float).

(** [buffer.clear (channel, 0, buffer.getNumSamples ())]: every sample of
    the channel becomes 0; the other channels are not touched. *)
Fixpoint clearChannel (channel : nat) (buffer : AudioBuffer) : AudioBuffer :=
  match buffer with
  | [] => []
  | samples :: rest =>
      match channel with
      | O => map (fun _ => 0%float) samples :: rest
      | S c => samples :: clearChannel c rest
      end
  end.

(** [for (auto i = totalNumInputChannels; i < totalNumOutputChannels; ++i)
       buffer.clear (i, 0, buffer.getNumSamples ());] *)
Definition clearSurplusOutputs (totalNumInputChannels totalNumOutputChannels : nat)
    (buffer : AudioBuffer) : AudioBuffer :=
  fold_left (fun b i => clearChannel i b)
    (seq totalNumInputChannels (totalNumOutputChannels - totalNumInputChannels))
    buffer.

End AudioSide.
Import AudioSide.

(** A channel of zeros, as long as [samples]. *)
Definition silence (samples : list float) : list float :=
  map (fun _ => 0%float) samples.

Lemma clearChannel_nth_error channel : forall buffer c,
  nth_error (clearChannel channel buffer) c =
  if Nat.eqb c channel then option_map silence (nth_error buffer c)
  else nth_error buffer c.
Proof.
  induction channel as [|channel IH]; intros [|samples rest] c; simpl.
  - destruct c; reflexivity.
  - destruct c; reflexivity.
  - destruct c; simpl; [reflexivity|]. destruct (Nat.eqb c channel); reflexivity.
  - destruct c; simpl; [reflexivity|]. apply IH.
Qed.

Lemma clearChannel_length channel : forall buffer,
  List.length (clearChannel channel buffer) = List.length buffer.
Proof.
  induction channel as [|channel IH]; intros [|samples rest]; simpl; auto.
Qed.

Lemma clear_range_nth_error first count : forall buffer c,
  nth_error (fold_left (fun b i => clearChannel i b) (seq first count) buffer) c =
  if (first <=? c) && (c <? first + count)
  then option_map silence (nth_error buffer c)
  else nth_error buffer c.
Proof.
  induction count as [|count IH]; intros buffer c.
  - simpl. replace (c <? first + 0) with (c <? first) by (f_equal; lia).
    destruct (Nat.leb_spec first c), (Nat.ltb_spec c first); simpl; try reflexivity; lia.
  - rewrite seq_S, fold_left_app. simpl.
    rewrite clearChannel_nth_error, IH.
    destruct (Nat.eqb_spec c (first + count)) as [E|NE].
    + subst c.
      destruct (Nat.leb_spec first (first + count)); [|lia].
      destruct (Nat.ltb_spec (first + count) (first + count)); [lia|].
      destruct (Nat.ltb_spec (first + count) (first + S count)); [|lia].
      reflexivity.
    + destruct (Nat.leb_spec first c); simpl; [|reflexivity].
      destruct (Nat.ltb_spec c (first + count)), (Nat.ltb_spec c (first + S count));
        try reflexivity; lia.
Qed.

(** X15. The loop that opens [processBlock] keeps the number of channels,
    leaves every channel below [totalNumInputChannels] (and every channel
    from [totalNumOutputChannels] on) as it was, and turns each channel in
    between into zeros of the same length. *)
Theorem surplus_outputs_cleared totalNumInputChannels totalNumOutputChannels buffer :
  let cleared :=
    clearSurplusOutputs totalNumInputChannels totalNumOutputChannels buffer in
  List.length cleared = List.length buffer /\
  (forall c, c < totalNumInputChannels \/ totalNumOutputChannels <= c ->
             nth_error cleared c = nth_error buffer c) /\
  (forall c samples,
     totalNumInputChannels <= c < totalNumOutputChannels ->
     nth_error buffer c = Some samples ->
     nth_error cleared c = Some (repeat 0%float (List.length samples))).
Proof.
  intros cleared. subst cleared. unfold clearSurplusOutputs. split; [|split].
  - generalize (seq totalNumInputChannels (totalNumOutputChannels - totalNumInputChannels)).
    intros l. revert buffer.
    induction l as [|i l IH]; intros buffer; simpl; [reflexivity|].
    rewrite IH. apply clearChannel_length.
  - intros c OUT. rewrite clear_range_nth_error.
    destruct (Nat.leb_spec totalNumInputChannels c); simpl; [|reflexivity].
    destruct (Nat.ltb_spec c (totalNumInputChannels +
                               (totalNumOutputChannels - totalNumInputChannels)));
      [lia|reflexivity].
  - intros c samples IN CH. rewrite clear_range_nth_error, CH.
    destruct (Nat.leb_spec totalNumInputChannels c); [|lia].
    destruct (Nat.ltb_spec c (totalNumInputChannels +
                               (totalNumOutputChannels - totalNumInputChannels)));
      [|lia].
    simpl. f_equal. unfold silence. clear.
    induction samples as [|s samples IH]; simpl; [reflexivity|]. rewrite IH. reflexivity.
Qed.

(** ** The layout of the editor *)

Module EditorLayout.

(** [juce::Rectangle<int>]: position and size. *)
Record Rectangle : Type := {
  getX : Z;
  getY : Z;
  getWidth : Z;
  getHeight : Z
}.

(** [Rectangle::removeFromTop]: the strip of height
    [jmin (amountToRemove, h)] at the top is returned and the receiver is
    left with what lies below it.  The pair is (strip, receiver after). *)
Definition removeFromTop (amountToRemove : Z) (r : Rectangle) : Rectangle * Rectangle :=
  let strip := {| getX := getX r; getY := getY r; getWidth := getWidth r;
                  getHeight := Z.min amountToRemove (getHeight r) |} in
  (strip,
   {| getX := getX r; getY := getY r + getHeight strip; getWidth := getWidth r;
      getHeight := getHeight r - getHeight strip |}).

(** [Rectangle::removeFromLeft], likewise for a strip on the left. *)
Definition removeFromLeft (amountToRemove : Z) (r : Rectangle) : Rectangle * Rectangle :=
  let strip := {| getX := getX r; getY := getY r;
                  getWidth := Z.min amountToRemove (getWidth r);
                  getHeight := getHeight r |} in
  (strip,
   {| getX := getX r + getWidth strip; getY := getY r;
      getWidth := getWidth r - getWidth strip; getHeight := getHeight r |}).

(** [Rectangle::contains (Point)]. *)
Definition contains (r : Rectangle) (px py : Z) : bool :=
  (getX r <=? px)%Z && (getY r <=? py)%Z &&
  (px <? getX r + getWidth r)%Z && (py <? getY r + getHeight r)%Z.

(** The bounds [resized] hands to the four labels. *)
Record LabelBounds : Type := {
  earlyMsBounds : Rectangle;
  dividerBounds : Rectangle;
  lateMsBounds : Rectangle;
  playheadBounds : Rectangle
}.

(** [resized ()], for an editor of the given size: [getLocalBounds ()] is
    the rectangle at the origin with that size, and [/] on [int] truncates. *)
Definition resized (width height : Z) : LabelBounds :=
  let bounds := {| getX := 0; getY := 0; getWidth := width; getHeight := height |} in
  let '(timingArea, bounds) := removeFromTop (Z.quot (getHeight bounds) 2) bounds in
  let playhead := bounds in
  let dividerWidth := 20%Z in
  let sideWidth := Z.quot (getWidth timingArea - dividerWidth) 2 in
  let '(early, timingArea) := removeFromLeft sideWidth timingArea in
  let '(divider, timingArea) := removeFromLeft dividerWidth timingArea in
  {| earlyMsBounds := early;
     dividerBounds := divider;
     lateMsBounds := timingArea;
     playheadBounds := playhead |}.

End EditorLayout.
Import EditorLayout.

Section LayoutFacts.
Local Open Scope Z_scope.


Lemma quot2_bounds a : 0 <= a -> 2 * (a ÷ 2) <= a <= 2 * (a ÷ 2) + 1.
Proof.
  intros A. rewrite Z.quot_div_nonneg by lia.
  pose proof (Z.div_mod a 2 ltac:(lia)). pose proof (Z.mod_pos_bound a 2 ltac:(lia)).
  lia.
Qed.

(** X16. For an editor at least 20 pixels wide, [resized] gives the divider
    exactly 20 pixels, gives the early and late labels the rest of the width
    with at most one pixel more for the late label, and splits the height
    between the timing row and the playhead label, which gets at most one
    pixel more. *)
Theorem resized_sizes width height :
  20 <= width -> 0 <= height ->
  let b := resized width height in
  getWidth (earlyMsBounds b) + getWidth (dividerBounds b) + getWidth (lateMsBounds b)
    = width /\
  getWidth (dividerBounds b) = 20 /\
  0 <= getWidth (lateMsBounds b) - getWidth (earlyMsBounds b) <= 1 /\
  getHeight (earlyMsBounds b) + getHeight (playheadBounds b) = height /\
  0 <= getHeight (playheadBounds b) - getHeight (earlyMsBounds b) <= 1.
Proof.
  intros W H b. subst b. unfold resized, removeFromTop, removeFromLeft. simpl.
  pose proof (quot2_bounds (width - 20) ltac:(lia)).
  pose proof (quot2_bounds height H).
  lia.
Qed.

(** X17. For an editor at least 20 pixels wide, the four label bounds that
    [resized] sets tile the editor: every point of the editor lies in
    exactly one of them. *)
Theorem resized_tiles_editor width height px py :
  20 <= width -> 0 <= height ->
  0 <= px < width -> 0 <= py < height ->
  let b := resized width height in
  Z.b2z (contains (earlyMsBounds b) px py) + Z.b2z (contains (dividerBounds b) px py)
  + Z.b2z (contains (lateMsBounds b) px py) + Z.b2z (contains (playheadBounds b) px py)
  = 1.
Proof.
  intros W H PX PY b. subst b.
  unfold resized, removeFromTop, removeFromLeft, contains. simpl.
  pose proof (quot2_bounds (width - 20) ltac:(lia)).
  pose proof (quot2_bounds height H).
  set (side := (width - 20) ÷ 2) in *. set (top := height ÷ 2) in *.
  rewrite !Z.min_l by lia.
  repeat match goal with
         | |- context [(?a <=? ?b)%Z] => destruct (Z.leb_spec a b)
         | |- context [(?a <? ?b)%Z] => destruct (Z.ltb_spec a b)
         end; simpl; lia.
Qed.

Lemma resized_sizes_witness :
  let b := resized 400 120 in
  (getWidth (earlyMsBounds b) + getWidth (dividerBounds b) + getWidth (lateMsBounds b)
   = 400)%Z /\
  getWidth (dividerBounds b) = 20%Z.
Proof.
  pose proof (resized_sizes 400 120 ltac:(lia) ltac:(lia)) as H.
  split; [exact (proj1 H)|exact (proj1 (proj2 H))].
Defined.

Lemma resized_tiles_editor_witness :
  let b := resized 400 120 in
  (Z.b2z (contains (earlyMsBounds b) 195 30) + Z.b2z (contains (dividerBounds b) 195 30)
   + Z.b2z (contains (lateMsBounds b) 195 30) + Z.b2z (contains (playheadBounds b) 195 30)
   = 1)%Z.
Proof.
  apply (resized_tiles_editor 400 120 195 30); lia.
Defined.

End LayoutFacts.

(** ** Bus layouts *)

Module BusLayouts.
Section Layouts.
(** [juce::AudioChannelSet] with its [operator==], and the two sets the
    code names. *)
Variable AudioChannelSet : Type.
Variable sameChannelSet : AudioChannelSet -> AudioChannelSet -> bool.
Variables mono stereo : AudioChannelSet.
(** The two project macros the function is compiled under. *)
Variables JucePlugin_IsMidiEffect JucePlugin_IsSynth : bool.

(** [AudioProcessor::BusesLayout], as far as the function reads it. *)
Record BusesLayout : Type := {
  getMainInputChannelSet : AudioChannelSet;
  getMainOutputChannelSet : AudioChannelSet
}.

(** [isBusesLayoutSupported], with [JucePlugin_PreferredChannelConfigurations]
    not defined. *)
Definition isBusesLayoutSupported (layouts : BusesLayout) : bool :=
  if JucePlugin_IsMidiEffect then true
  else if negb (sameChannelSet (getMainOutputChannelSet layouts) mono)
          && negb (sameChannelSet (getMainOutputChannelSet layouts) stereo)
  then false
  else if negb JucePlugin_IsSynth
          && negb (sameChannelSet (getMainOutputChannelSet layouts)
                     (getMainInputChannelSet layouts))
  then false
  else true.

End Layouts.
End BusLayouts.

(** X18. Compiled as an audio plugin (not a MIDI effect), the processor
    supports a bus layout exactly when the main output is mono or stereo
    and, unless it is compiled as a synth, the main input has the same
    channel set as the main output. *)
Theorem supported_layouts_are_mono_or_stereo
    (AudioChannelSet : Type) (sameChannelSet : AudioChannelSet -> AudioChannelSet -> bool)
    (mono stereo : AudioChannelSet) (isSynth : bool)
    (layouts : BusLayouts.BusesLayout AudioChannelSet) :
  (forall a b, sameChannelSet a b = true <-> a = b) ->
  BusLayouts.isBusesLayoutSupported AudioChannelSet sameChannelSet mono stereo
    false isSynth layouts = true
  <->
  (BusLayouts.getMainOutputChannelSet _ layouts = mono \/
   BusLayouts.getMainOutputChannelSet _ layouts = stereo) /\
  (isSynth = false ->
   BusLayouts.getMainInputChannelSet _ layouts =
   BusLayouts.getMainOutputChannelSet _ layouts).
Proof.
  intros EQ. unfold BusLayouts.isBusesLayoutSupported.
  set (out := BusLayouts.getMainOutputChannelSet _ layouts).
  set (inp := BusLayouts.getMainInputChannelSet _ layouts).
  pose proof (EQ out mono) as M. pose proof (EQ out stereo) as S.
  pose proof (EQ out inp) as I.
  destruct (sameChannelSet out mono), (sameChannelSet out stereo),
    (sameChannelSet out inp), isSynth; simpl; split; intros H;
    try discriminate H; try reflexivity.
  all: try (split; [tauto | intros; try discriminate; symmetry; tauto]).
  all: try (destruct H as [[H|H] H']; exfalso;
            first [ apply M in H; discriminate H
                  | apply S in H; discriminate H
                  | specialize (H' eq_refl); symmetry in H'; apply I in H';
                    discriminate H' ]).
Qed.

Lemma supported_layouts_are_mono_or_stereo_witness :
  BusLayouts.isBusesLayoutSupported nat Nat.eqb 1 2 false false
    {| BusLayouts.getMainInputChannelSet := 2;
       BusLayouts.getMainOutputChannelSet := 2 |} = true /\
  BusLayouts.isBusesLayoutSupported nat Nat.eqb 1 2 false false
    {| BusLayouts.getMainInputChannelSet := 1;
       BusLayouts.getMainOutputChannelSet := 2 |} = false.
Proof.
  split.
  - apply (supported_layouts_are_mono_or_stereo nat Nat.eqb 1 2 false).
    + intros a b. apply Nat.eqb_eq.
    + simpl. split; [right; reflexivity|reflexivity].
  - reflexivity.
Defined.

(** ** The side of the grid line, as displayed *)








